(** * sys-core/service/config: TLS material helpers of sys-share

    A shallow embedding of [sys-core/service/config/config.go] and of the
    parts of the Go packages it calls, with the properties of the TLS
    credential loaders, the remote trust extractor, the random byte
    generator and the timestamp converters. *)

From Stdlib Require Import ZArith Lia String Ascii List.
From Stdlib.Strings Require Import Byte.
From stdpp Require Import base option list strings gmap sorting pretty.

Local Open Scope Z_scope.

(** * The package and what it calls *)

(** ** Go values *)

(** A Go [[]byte] is a list of bytes; a [string] used as text (paths,
    addresses, messages) is a [string]. *)
Abbreviation bytes := (list byte).

#[global] Instance byte_eq_decision : EqDecision byte := byte_eq_dec.

Definition bytes_of (s : string) : bytes := list_byte_of_string s.

(** Two's-complement wrap-around of a [w]-bit signed integer. *)
Definition wrap (w : Z) (x : Z) : Z := (x + 2 ^ (w - 1)) mod 2 ^ w - 2 ^ (w - 1).
Definition int64 (x : Z) : Z := wrap 64 x.
Definition int32 (x : Z) : Z := wrap 32 x.

(** Go's [/] on int64 truncates toward zero. *)
Definition go_div (a b : Z) : Z := int64 (Z.quot a b).

(** An [error] value: only its message is observable here. *)
Record error := errors_New { Error : string }.

#[global] Instance error_eq_dec : EqDecision error.
Proof. solve_decision. Defined.

(** [fmt.Errorf] and [fmt.Sprintf] with the formats the package uses. *)
Definition fmt_Errorf (msg : string) : error := errors_New msg.
Definition fmt_Sprintf_s_443 (domain : string) : string := domain +:+ ":443".

(** ** package time, package timestamppb *)

(** A [time.Time] as seconds and nanoseconds since the Unix epoch, the
    nanoseconds in [0, 1e9). The location only affects printing. *)
Record time_Time := { time_sec : Z; time_nsec : Z; time_utc : bool }.

(** [time.Unix(sec, nsec)]: [nsec] outside [0, 1e9) is carried into [sec]. *)
Definition time_Unix (sec nsec : Z) : time_Time :=
  if (nsec <? 0) || (1000000000 <=? nsec) then
    let n := go_div nsec 1000000000 in
    let sec := int64 (sec + n) in
    let nsec := int64 (nsec - int64 (n * 1000000000)) in
    if nsec <? 0 then
      {| time_sec := int64 (sec - 1); time_nsec := int32 (int64 (nsec + 1000000000));
         time_utc := false |}
    else {| time_sec := sec; time_nsec := int32 nsec; time_utc := false |}
  else {| time_sec := sec; time_nsec := int32 nsec; time_utc := false |}.

Definition time_UTC (t : time_Time) : time_Time :=
  {| time_sec := time_sec t; time_nsec := time_nsec t; time_utc := true |}.

Definition time_Time_Unix (t : time_Time) : Z := time_sec t.
Definition time_Time_Nanosecond (t : time_Time) : Z := time_nsec t.

(** [timestamppb.Timestamp]: [Seconds] is an int64, [Nanos] an int32. *)
Record timestamppb_Timestamp := { Seconds : Z; Nanos : Z }.

Definition timestamppb_New (t : time_Time) : timestamppb_Timestamp :=
  {| Seconds := int64 (time_Time_Unix t); Nanos := int32 (time_Time_Nanosecond t) |}.

(** The generated getter is nil-safe: a nil receiver yields 0. *)
Definition GetNanos (x : option timestamppb_Timestamp) : Z :=
  match x with
  | Some ts => Nanos ts
  | None => 0
  end.

(** ** config.go: timestamp helpers *)

Definition UnixToUtcTS (i : Z) : timestamppb_Timestamp :=
  let t := time_UTC (time_Unix 0 i) in
  timestamppb_New t.

Definition TsToUnixUTC (i : option timestamppb_Timestamp) : Z :=
  int64 (GetNanos i).

(** ** package x509, package tls, package credentials, package certmagic: data *)

(** An [x509.Certificate] with the fields the package reads: the DER bytes,
    the basic-constraints CA flag and the subject. *)
Record x509_Certificate := {
  Raw : bytes;
  IsCA : bool;
  Subject : string
}.

#[global] Instance x509_Certificate_eq_dec : EqDecision x509_Certificate.
Proof. solve_decision. Defined.

(** An [x509.CertPool] holds its certificates in insertion order. *)
Abbreviation x509_CertPool := (list x509_Certificate).

(** A [tls.Certificate]: the DER chain, leaf first, and the private key. *)
Record tls_Certificate := {
  Certificate : list bytes;
  PrivateKey : bytes
}.

Inductive tls_ClientAuthType :=
| NoClientCert
| RequestClientCert
| RequireAnyClientCert
| VerifyClientCertIfGiven
| RequireAndVerifyClientCert.

(** [certmagic.ACMEManager], the fields the package sets. *)
Record certmagic_ACMEManager := {
  CA : string;
  Email : string;
  Agreed : bool
}.

(** The callback given to [certmagic.NewCache]; the package has one, which
    answers with the address of [certmagic.Default]. *)
Inductive certmagic_GetConfigForCert := returnDefault.

Record certmagic_CacheOptions := { GetConfigForCert : option certmagic_GetConfigForCert }.
Record certmagic_Cache := { cache_options : certmagic_CacheOptions }.

Record certmagic_Config := {
  Issuer : option certmagic_ACMEManager;
  certCache : option certmagic_Cache
}.

(** The function stored in [tls.Config.GetCertificate]: the method value
    [cfg.GetCertificate] of a certmagic configuration. *)
Inductive tls_GetCertificateFunc :=
| certmagic_GetCertificate (cfg : certmagic_Config).

(** A [tls.Config]; a field left out of a composite literal has its zero
    value, written out in [tls_Config_zero]. *)
Record tls_Config := {
  Certificates : list tls_Certificate;
  GetCertificate : option tls_GetCertificateFunc;
  RootCAs : option x509_CertPool;
  NextProtos : list string;
  ClientAuth : tls_ClientAuthType;
  InsecureSkipVerify : bool
}.

Definition tls_Config_zero : tls_Config :=
  {| Certificates := []; GetCertificate := None; RootCAs := None;
     NextProtos := []; ClientAuth := NoClientCert; InsecureSkipVerify := false |}.

Record tls_ConnectionState := { PeerCertificates : list x509_Certificate }.

Record tls_Conn := { conn_addr : string; conn_state : tls_ConnectionState }.

(** [credentials.TransportCredentials] as built by [credentials.NewTLS]. *)
Record credentials_TransportCredentials := { creds_config : tls_Config }.

(** ** The world outside the package *)

(** Calls that reach the file system, the network or the certificate
    issuer, in the order they are made. *)
Inductive Event :=
| EvReadFile (filename : string)
| EvWriteFile (filename : string) (data : bytes) (perm : Z)
| EvDial (network addr : string) (conf : tls_Config)
| EvClose (addr : string)
| EvManageSync (cfg : certmagic_Config) (domains : list string).

(** The state of the file system and of the random source, and how the
    environment answers each call. An answer may depend on the moment of the
    call (the number of calls made before it), so a fault can be transient. *)
Record World := {
  (** regular files by path *)
  files : gmap string bytes;
  (** a file that cannot be opened or read: permissions, a directory, I/O *)
  read_fault : nat -> string -> option error;
  (** a file that cannot be created or truncated: permissions, no directory *)
  create_fault : nat -> string -> option error;
  (** a write that stops after some bytes: disk full *)
  write_fault : nat -> string -> option (nat * error);
  (** the outcome of a TLS handshake: an error or the peer's chain *)
  handshake : nat -> string -> string -> tls_Config -> error + list x509_Certificate;
  (** the outcome of obtaining certificates for a list of domains *)
  issuance : nat -> certmagic_Config -> list string -> option error;
  (** the bytes the system random source delivers before it fails *)
  entropy : bytes;
  entropy_err : error;
  trace : list Event
}.

Definition now (w : World) : nat := length (trace w).

Definition with_files (f : gmap string bytes) (w : World) : World :=
  {| files := f; read_fault := read_fault w; create_fault := create_fault w;
     write_fault := write_fault w; handshake := handshake w; issuance := issuance w;
     entropy := entropy w; entropy_err := entropy_err w; trace := trace w |}.

Definition with_entropy (e : bytes) (w : World) : World :=
  {| files := files w; read_fault := read_fault w; create_fault := create_fault w;
     write_fault := write_fault w; handshake := handshake w; issuance := issuance w;
     entropy := e; entropy_err := entropy_err w; trace := trace w |}.

Definition record (ev : Event) (w : World) : World :=
  {| files := files w; read_fault := read_fault w; create_fault := create_fault w;
     write_fault := write_fault w; handshake := handshake w; issuance := issuance w;
     entropy := entropy w; entropy_err := entropy_err w; trace := trace w ++ [ev] |}.

(** ** Go computations *)

(** A call either returns or panics; it may change the world. *)
Inductive outcome (A : Type) :=
| Returns (a : A)
| Panics (msg : string).
Arguments Returns {A} a.
Arguments Panics {A} msg.

Definition Go (A : Type) : Type := World -> outcome A * World.

Definition ret {A} (a : A) : Go A := fun w => (Returns a, w).

Definition bind {A B} (m : Go A) (k : A -> Go B) : Go B :=
  fun w =>
    match m w with
    | (Returns a, w') => k a w'
    | (Panics msg, w') => (Panics msg, w')
    end.

Definition panic {A} (msg : string) : Go A := fun w => (Panics msg, w).

(** [defer d] before [body]: [d] runs when [body] is left, also by a panic. *)
Definition defer {A B} (d : Go B) (body : Go A) : Go A :=
  fun w =>
    let '(r, w') := body w in
    match d w' with
    | (Returns _, w'') => (r, w'')
    | (Panics msg, w'') => (Panics msg, w'')
    end.

Notation "'let*' x ':=' m 'in' k" := (bind m (fun x => k))
  (at level 10, x name, m at level 100, k at level 200).
Notation "'let*' ' pat ':=' m 'in' k" := (bind m (fun x => match x with pat => k end))
  (at level 10, pat pattern, m at level 100, k at level 200).

(** ** package os, package ioutil *)

Definition ENOENT (op path : string) : error :=
  errors_New (op +:+ " " +:+ path +:+ ": no such file or directory").

(** What reading [filename] yields at moment [t]. *)
Definition read_result (w : World) (t : nat) (filename : string) : error + bytes :=
  match read_fault w t filename with
  | Some e => inl e
  | None =>
    match files w !! filename with
    | Some data => inr data
    | None => inl (ENOENT "open" filename)
    end
  end.

(** [ioutil.ReadFile]: the whole file, or [nil] and the error. *)
Definition ioutil_ReadFile (filename : string) : Go (bytes * option error) :=
  fun w =>
    let w' := record (EvReadFile filename) w in
    match read_result w (now w) filename with
    | inl e => (Returns ([], Some e), w')
    | inr data => (Returns (data, None), w')
    end.

(** [ioutil.WriteFile]: opens with O_WRONLY|O_CREATE|O_TRUNC, writes [data],
    closes. A failure to open leaves the file as it was; a failed write
    leaves the bytes written before it. *)
Definition ioutil_WriteFile (filename : string) (data : bytes) (perm : Z) : Go (option error) :=
  fun w =>
    let w' := record (EvWriteFile filename data perm) w in
    match create_fault w (now w) filename with
    | Some e => (Returns (Some e), w')
    | None =>
      match write_fault w (now w) filename with
      | Some (n, e) => (Returns (Some e), with_files (<[filename := take n data]> (files w)) w')
      | None => (Returns None, with_files (<[filename := data]> (files w)) w')
      end
    end.

Definition LoadFile (filepath : string) : Go (bytes * option error) :=
  ioutil_ReadFile filepath.

(** ** package big, package crypto/rand *)

Definition byte_to_Z (x : byte) : Z := Z.of_N (Byte.to_N x).

(** [big.Int.BitLen] of a non-negative integer. *)
Definition big_BitLen (n : Z) : Z := if n =? 0 then 0 else Z.log2 n + 1.

(** [big.Int.SetBytes]: a big-endian unsigned integer. *)
Definition big_SetBytes (buf : list Z) : Z := fold_left (fun acc x => acc * 256 + x) buf 0.

Definition big_NewInt (x : Z) : Z := x.

(** [num.Int64()] on a [*big.Int]. *)
Definition big_Int64 (num : option Z) : Go Z :=
  match num with
  | Some n => ret (int64 n)
  | None => panic "invalid memory address or nil pointer dereference"
  end.

(** [bytes[0] &= uint8(int(1<<b) - 1)] *)
Definition mask_first (b : Z) (buf : bytes) : list Z :=
  match buf with
  | [] => []
  | x :: rest => Z.land (byte_to_Z x) (Z.shiftl 1 b - 1) :: map byte_to_Z rest
  end.

(** The loop of [rand.Int] over the bytes [src] that the source still
    delivers: [k] bytes are read into the buffer, the top bits of the first
    are cleared, and the candidate is returned when it is below [max];
    otherwise the next [k] bytes are tried. [io.ReadFull] fails when the
    source ends first. The result is the number, if any, and the bytes left. *)
Fixpoint rand_Int_loop (k : nat) (b max : Z) (filled src : bytes) : option Z * bytes :=
  match src with
  | [] => (None, [])
  | x :: src' =>
    let buf := filled ++ [x] in
    if decide (length buf = k) then
      let n := big_SetBytes (mask_first b buf) in
      if n <? max then (Some n, src') else rand_Int_loop k b max [] src'
    else rand_Int_loop k b max buf src'
  end.

(** [rand.Int(rand.Reader, max)]: a uniform integer in [0, max). *)
Definition rand_Int (max : Z) : Go (option Z * option error) :=
  if max <=? 0 then panic "crypto/rand: argument to Int is <= 0" else
  let n := max - 1 in
  let bitLen := big_BitLen n in
  if bitLen =? 0 then ret (Some 0, None) else
  let k := (bitLen + 7) / 8 in
  let b := if bitLen mod 8 =? 0 then 8 else bitLen mod 8 in
  fun w =>
    match rand_Int_loop (Z.to_nat k) b max [] (entropy w) with
    | (Some n, rest) => (Returns (Some n, None), with_entropy rest w)
    | (None, rest) => (Returns (None, Some (entropy_err w)), with_entropy rest w)
    end.

(** ** Builtins on slices and strings *)

(** [make([]byte, n)] *)
Definition make_bytes (n : Z) : Go bytes :=
  if n <? 0 then panic "makeslice: len out of range"
  else ret (replicate (Z.to_nat n) x00).

(** [s[i]] on a string *)
Definition string_index (s : string) (i : Z) : Go byte :=
  match (if i <? 0 then None else bytes_of s !! Z.to_nat i) with
  | Some c => ret c
  | None => panic "index out of range"
  end.

Definition len (s : string) : Z := Z.of_nat (String.length s).

(** ** config.go: GenRandomByteSlice *)

Definition legalChars : string :=
  "01234567890ABCDEFGHIJKLMNOPQRSTUVWXYZabcdefghijklmnopqrstuvwxyz-_".

(** The [for] loop with [todo = length - i] rounds to go. *)
Fixpoint GenRandomByteSlice_loop (todo : nat) (rnd : bytes) : Go (bytes * option error) :=
  match todo with
  | O => ret (rnd, None)
  | S todo' =>
    let* '(num, err) := rand_Int (big_NewInt (int64 (len legalChars))) in
    match err with
    | Some e => ret ([], Some e)
    | None =>
      let* i := big_Int64 num in
      let* c := string_index legalChars i in
      GenRandomByteSlice_loop todo' (rnd ++ [c])
    end
  end.

Definition GenRandomByteSlice (length : Z) : Go (bytes * option error) :=
  let* rnd := make_bytes length in
  GenRandomByteSlice_loop (Z.to_nat length) rnd.

(** ** package bytes *)

Definition nl : bytes := [x0a].

Fixpoint bytes_HasPrefix (s prefix : bytes) : bool :=
  match prefix, s with
  | [], _ => true
  | p :: prefix', c :: s' => bool_decide (c = p) && bytes_HasPrefix s' prefix'
  | _ :: _, [] => false
  end.

Definition bytes_HasSuffix (s suffix : bytes) : bool :=
  (length suffix <=? length s)%nat &&
  bool_decide (drop (length s - length suffix) s = suffix).

(** [bytes.Index]: where [sep] first occurs in [s]. *)
Fixpoint bytes_Index (s sep : bytes) : option nat :=
  if bytes_HasPrefix s sep then Some 0%nat
  else match s with
       | [] => None
       | _ :: s' => S <$> bytes_Index s' sep
       end.

Fixpoint bytes_IndexByte (s : bytes) (c : byte) : option nat :=
  match s with
  | [] => None
  | x :: s' => if bool_decide (x = c) then Some 0%nat else S <$> bytes_IndexByte s' c
  end.

(** [bytes.Cut]: the text before and after the first [sep]. *)
Definition bytes_Cut (s sep : bytes) : option (bytes * bytes) :=
  match bytes_Index s sep with
  | Some i => Some (take i s, drop (i + length sep) s)
  | None => None
  end.

Fixpoint bytes_TrimLeft (s cutset : bytes) : bytes :=
  match s with
  | [] => []
  | c :: s' => if bool_decide (c ∈ cutset) then bytes_TrimLeft s' cutset else s
  end.

Definition bytes_TrimRight (s cutset : bytes) : bytes :=
  reverse (bytes_TrimLeft (reverse s) cutset).

(** [bytes.TrimSpace], on ASCII white space. *)
Definition asciiSpace : bytes := [x09; x0a; x0b; x0c; x0d; x20].

Definition bytes_TrimSpace (s : bytes) : bytes :=
  bytes_TrimRight (bytes_TrimLeft s asciiSpace) asciiSpace.

(** ** package base64: StdEncoding *)

Definition encodeStd : string :=
  "ABCDEFGHIJKLMNOPQRSTUVWXYZabcdefghijklmnopqrstuvwxyz0123456789+/".

Definition StdPadding : byte := "="%byte.

(** [byte(x)]: the low eight bits. *)
Definition byte_of_Z (x : Z) : byte := default x00 (Byte.of_N (Z.to_N (x mod 256))).

(** [enc.encode[i]], [i] a six-bit value. *)
Definition base64_encode (i : Z) : byte := default x00 (bytes_of encodeStd !! Z.to_nat i).

(** [enc.decodeMap[c]], with [None] where the table holds 0xFF. *)
Definition base64_decodeMap (c : byte) : option Z :=
  Z.of_nat <$> bytes_IndexByte (bytes_of encodeStd) c.

(** [Encode]: three bytes become four characters; one or two bytes left at
    the end are padded. *)
Fixpoint base64_Encode (src : bytes) : bytes :=
  match src with
  | s0 :: s1 :: s2 :: rest =>
    let val := Z.lor (Z.lor (Z.shiftl (byte_to_Z s0) 16) (Z.shiftl (byte_to_Z s1) 8))
                     (byte_to_Z s2) in
    base64_encode (Z.land (Z.shiftr val 18) 63) ::
    base64_encode (Z.land (Z.shiftr val 12) 63) ::
    base64_encode (Z.land (Z.shiftr val 6) 63) ::
    base64_encode (Z.land val 63) :: base64_Encode rest
  | [s0; s1] =>
    let val := Z.lor (Z.shiftl (byte_to_Z s0) 16) (Z.shiftl (byte_to_Z s1) 8) in
    [base64_encode (Z.land (Z.shiftr val 18) 63);
     base64_encode (Z.land (Z.shiftr val 12) 63);
     base64_encode (Z.land (Z.shiftr val 6) 63);
     StdPadding]
  | [s0] =>
    let val := Z.shiftl (byte_to_Z s0) 16 in
    [base64_encode (Z.land (Z.shiftr val 18) 63);
     base64_encode (Z.land (Z.shiftr val 12) 63);
     StdPadding; StdPadding]
  | [] => []
  end.

(** One quantum of [Decode]: four characters give three bytes; a padded
    last quantum gives one or two. *)
Definition base64_quantum (d0 d1 d2 d3 : Z) : Z :=
  Z.lor (Z.lor (Z.lor (Z.shiftl d0 18) (Z.shiftl d1 12)) (Z.shiftl d2 6)) d3.

Fixpoint base64_decodeQuanta (src : bytes) : option bytes :=
  match src with
  | [] => Some []
  | c0 :: c1 :: c2 :: c3 :: rest =>
    if bool_decide (c3 = StdPadding) then
      match rest with
      | [] =>
        d0 ← base64_decodeMap c0;
        d1 ← base64_decodeMap c1;
        if bool_decide (c2 = StdPadding) then
          let val := base64_quantum d0 d1 0 0 in
          Some [byte_of_Z (Z.shiftr val 16)]
        else
          d2 ← base64_decodeMap c2;
          let val := base64_quantum d0 d1 d2 0 in
          Some [byte_of_Z (Z.shiftr val 16); byte_of_Z (Z.shiftr val 8)]
      | _ :: _ => None
      end
    else
      d0 ← base64_decodeMap c0;
      d1 ← base64_decodeMap c1;
      d2 ← base64_decodeMap c2;
      d3 ← base64_decodeMap c3;
      let val := base64_quantum d0 d1 d2 d3 in
      out ← base64_decodeQuanta rest;
      Some (byte_of_Z (Z.shiftr val 16) :: byte_of_Z (Z.shiftr val 8) ::
            byte_of_Z (Z.shiftr val 0) :: out)
  | _ => None
  end.

(** [Decode]: new-line characters in the input are skipped. *)
Definition base64_Decode (src : bytes) : option bytes :=
  base64_decodeQuanta (filter (fun c => c <> x0a /\ c <> x0d) src).

(** ** package pem *)

Record pem_Block := {
  Type_ : string;
  Headers : gmap string string;
  Bytes : bytes
}.

Definition pemStart : bytes := nl ++ bytes_of "-----BEGIN ".
Definition pemEnd : bytes := nl ++ bytes_of "-----END ".
Definition pemEndOfLine : bytes := bytes_of "-----".
Definition colon : bytes := bytes_of ":".
Definition pemLineLength : nat := 64.

(** [getLine]: the first line of [data] without its line break and without
    trailing blanks, and the text after it. *)
Definition getLine (data : bytes) : bytes * bytes :=
  match bytes_IndexByte data x0a with
  | None => (bytes_TrimRight data [" "%byte; x09], [])
  | Some i =>
    let j := S i in
    let i := if (0 <? i)%nat && bool_decide (data !! (i - 1)%nat = Some x0d)
             then (i - 1)%nat else i in
    (bytes_TrimRight (take i data) [" "%byte; x09], drop j data)
  end.

Definition removeSpacesAndTabs (data : bytes) : bytes :=
  filter (fun b => b <> " "%byte /\ b <> x09) data.

(** [lineBreaker]: passes the text on and breaks the line after every 64
    characters; [used] characters stand on the current line. On [Close] a
    line that was begun is ended. *)
Fixpoint lineBreaker (used : nat) (b : bytes) : bytes :=
  match b with
  | [] => if (0 <? used)%nat then nl else []
  | c :: b' =>
    if (S used =? pemLineLength)%nat then c :: nl ++ lineBreaker 0 b'
    else c :: lineBreaker (S used) b'
  end.

Definition writeHeader (k v : string) : bytes :=
  bytes_of (k +:+ ": " +:+ v) ++ nl.

Definition procType : string := "Proc-Type".

Definition string_le (a b : string) : Prop := String.leb a b = true.

#[global] Instance string_le_dec a b : Decision (string_le a b).
Proof. unfold string_le. apply _. Defined.

(** The header lines: Proc-Type first, the others sorted by key, then an
    empty line; nothing when there are no headers. *)
Definition pem_headers (h : gmap string string) : bytes :=
  if bool_decide (h = ∅) then []
  else
    let keys := merge_sort string_le
                  (filter (fun k => k <> procType) (map fst (map_to_list h))) in
    match h !! procType with
    | Some v => writeHeader procType v
    | None => []
    end ++
    concat (map (fun k => writeHeader k (default ""%string (h !! k))) keys) ++
    nl.

Definition strings_Contains (s substr : string) : bool :=
  bool_decide (is_Some (bytes_Index (bytes_of s) (bytes_of substr))).

(** [pem.EncodeToMemory]: [None] stands for the [nil] returned for a block
    with a colon in a header key. *)
Definition pem_EncodeToMemory (b : pem_Block) : option bytes :=
  if existsb (fun k => strings_Contains k ":") (map fst (map_to_list (Headers b)))
  then None
  else Some (
    tail pemStart ++ bytes_of (Type_ b +:+ "-----") ++ nl ++
    pem_headers (Headers b) ++
    lineBreaker 0 (base64_Encode (Bytes b)) ++
    tail pemEnd ++ bytes_of (Type_ b +:+ "-----") ++ nl).

(** The header loop of [Decode]: lines with a colon are headers. [None]
    when the data ends inside the headers. *)
Fixpoint pem_Decode_headers (fuel : nat) (rest : bytes) (h : gmap string string)
  : option (gmap string string * bytes) :=
  match rest with
  | [] => None
  | _ :: _ =>
    let '(line, next) := getLine rest in
    match bytes_Cut line colon with
    | None => Some (h, rest)
    | Some (key, val) =>
      let key := bytes_TrimSpace key in
      let val := bytes_TrimSpace val in
      match fuel with
      | O => None
      | S fuel' =>
        pem_Decode_headers fuel' next
          (<[string_of_list_byte key := string_of_list_byte val]> h)
      end
    end
  end.

(** One round of the loop of [Decode]. *)
Inductive pem_round :=
| pem_found (p : pem_Block) (rest : bytes)
| pem_none
| pem_continue (rest : bytes).

Definition pem_Decode_round (rest : bytes) : pem_round :=
  match (if bytes_HasPrefix rest (tail pemStart)
         then Some (drop (length pemStart - 1) rest)
         else snd <$> bytes_Cut rest pemStart) with
  | None => pem_none
  | Some rest =>
    let '(typeLine, rest) := getLine rest in
    if negb (bytes_HasSuffix typeLine pemEndOfLine) then pem_continue rest else
    let typeLine := take (length typeLine - length pemEndOfLine) typeLine in
    match pem_Decode_headers (length rest) rest ∅ with
    | None => pem_none
    | Some (headers, rest) =>
      let ends :=
        if bool_decide (headers = ∅) && bytes_HasPrefix rest (tail pemEnd)
        then Some (0%nat, (length pemEnd - 1)%nat)
        else (fun i => (i, (i + length pemEnd)%nat)) <$> bytes_Index rest pemEnd in
      match ends with
      | None => pem_continue rest
      | Some (endIndex, endTrailerIndex) =>
        let endTrailer := drop endTrailerIndex rest in
        let endTrailerLen := (length typeLine + length pemEndOfLine)%nat in
        if (length endTrailer <? endTrailerLen)%nat then pem_continue rest else
        let restOfEndLine := drop endTrailerLen endTrailer in
        let endTrailer := take endTrailerLen endTrailer in
        if negb (bytes_HasPrefix endTrailer typeLine)
           || negb (bytes_HasSuffix endTrailer pemEndOfLine) then pem_continue rest else
        if negb (bool_decide (fst (getLine restOfEndLine) = [])) then pem_continue rest else
        let base64Data := removeSpacesAndTabs (take endIndex rest) in
        match base64_Decode base64Data with
        | None => pem_continue rest
        | Some decoded =>
          let p := {| Type_ := string_of_list_byte typeLine; Headers := headers;
                      Bytes := decoded |} in
          pem_found p (snd (getLine (drop (endIndex + length pemEnd - 1) rest)))
        end
      end
    end
  end.

(** [pem.Decode]: the first well-formed block of [data] and the text after
    it, or [None] and all of [data]. Every round begins past a BEGIN mark, so
    there are fewer rounds than bytes. *)
Fixpoint pem_Decode_loop (fuel : nat) (data rest : bytes) : option pem_Block * bytes :=
  match pem_Decode_round rest with
  | pem_found p rest' => (Some p, rest')
  | pem_none => (None, data)
  | pem_continue rest' =>
    match fuel with
    | O => (None, data)
    | S fuel' => pem_Decode_loop fuel' data rest'
    end
  end.

Definition pem_Decode (data : bytes) : option pem_Block * bytes :=
  pem_Decode_loop (length data) data data.

(** ** The imported packages *)

(** What the package takes from its imports without looking inside: the
    parsers of package tls and package x509, and the certmagic functions
    that build its values. *)
Class Libraries := {
  (** [tls.X509KeyPair]: the certificate of a PEM certificate and a PEM
      key, or the error when either is malformed or they do not match *)
  tls_X509KeyPair : bytes -> bytes -> error + tls_Certificate;
  (** the certificates of the CERTIFICATE blocks of PEM data that parse, in
      the order of the data, as [AppendCertsFromPEM] collects them *)
  x509_certificatesOfPEM : bytes -> list x509_Certificate;
  (** the package variable [certmagic.Default] *)
  certmagic_Default : certmagic_Config;
  certmagic_NewACMEManager : certmagic_Config -> certmagic_ACMEManager -> certmagic_ACMEManager;
  certmagic_New : certmagic_Cache -> certmagic_Config -> certmagic_Config;
  (** the method [TLSConfig] of a [certmagic.Config] *)
  certmagic_Config_TLSConfig : certmagic_Config -> tls_Config
}.

Section Package.
Context `{Libraries}.

(** ** package tls, package x509, package credentials: functions *)

Definition tls_Certificate_zero : tls_Certificate :=
  {| Certificate := []; PrivateKey := [] |}.

(** [tls.LoadX509KeyPair]: reads the two files, then [tls.X509KeyPair]. *)
Definition tls_LoadX509KeyPair (certFile keyFile : string) : Go (tls_Certificate * option error) :=
  let* '(certPEMBlock, err) := ioutil_ReadFile certFile in
  match err with
  | Some e => ret (tls_Certificate_zero, Some e)
  | None =>
    let* '(keyPEMBlock, err) := ioutil_ReadFile keyFile in
    match err with
    | Some e => ret (tls_Certificate_zero, Some e)
    | None =>
      match tls_X509KeyPair certPEMBlock keyPEMBlock with
      | inl e => ret (tls_Certificate_zero, Some e)
      | inr cert => ret (cert, None)
      end
    end
  end.

(** [tls.Dial]: connects and completes the handshake. *)
Definition tls_Dial (network addr : string) (conf : tls_Config) : Go (option tls_Conn * option error) :=
  fun w =>
    let w' := record (EvDial network addr conf) w in
    match handshake w (now w) network addr conf with
    | inl e => (Returns (None, Some e), w')
    | inr chain =>
      (Returns (Some {| conn_addr := addr; conn_state := {| PeerCertificates := chain |} |},
                None), w')
    end.

Definition tls_Conn_Close (conn : tls_Conn) : Go (option error) :=
  fun w => (Returns None, record (EvClose (conn_addr conn)) w).

Definition tls_Conn_ConnectionState (conn : tls_Conn) : tls_ConnectionState :=
  conn_state conn.

Definition x509_NewCertPool : x509_CertPool := [].

(** Two certificates are the same certificate when their DER bytes are. *)
Definition x509_CertPool_contains (s : x509_CertPool) (cert : x509_Certificate) : bool :=
  existsb (fun c => bool_decide (Raw c = Raw cert)) s.

Definition x509_CertPool_AddCert (s : x509_CertPool) (cert : x509_Certificate) : x509_CertPool :=
  if x509_CertPool_contains s cert then s else s ++ [cert].

(** [AppendCertsFromPEM]: adds every certificate found; reports whether
    there was one. *)
Definition x509_CertPool_AppendCertsFromPEM (s : x509_CertPool) (pemCerts : bytes)
  : x509_CertPool * bool :=
  fold_left (fun '(s, ok) cert => (x509_CertPool_AddCert s cert, true))
            (x509_certificatesOfPEM pemCerts) (s, false).

Definition alpnProtoStrH2 : string := "h2".

Definition AppendH2ToNextProtos (ps : list string) : list string :=
  if bool_decide (alpnProtoStrH2 ∈ ps) then ps else ps ++ [alpnProtoStrH2].

(** [credentials.NewTLS]: keeps a clone of the configuration, with "h2"
    among its protocols. *)
Definition credentials_NewTLS (c : tls_Config) : credentials_TransportCredentials :=
  {| creds_config :=
       {| Certificates := Certificates c; GetCertificate := GetCertificate c;
          RootCAs := RootCAs c; NextProtos := AppendH2ToNextProtos (NextProtos c);
          ClientAuth := ClientAuth c; InsecureSkipVerify := InsecureSkipVerify c |} |}.

(** ** config.go: credentials *)

Definition LoadTLSKeypair (certPath keyPath : string)
  : Go (option credentials_TransportCredentials * option error) :=
  let* '(serverCert, err) := tls_LoadX509KeyPair certPath keyPath in
  match err with
  | Some e => ret (None, Some e)
  | None =>
    let config :=
      {| Certificates := [serverCert];
         ClientAuth := NoClientCert;
         GetCertificate := None; RootCAs := None; NextProtos := [];
         InsecureSkipVerify := false |} in
    ret (Some (credentials_NewTLS config), None)
  end.

Definition ClientLoadCA (cacertPath : string)
  : Go (option credentials_TransportCredentials * option error) :=
  let* '(pemServerCA, err) := ioutil_ReadFile cacertPath in
  match err with
  | Some e => ret (None, Some e)
  | None =>
    let certPool := x509_NewCertPool in
    let '(certPool, ok) := x509_CertPool_AppendCertsFromPEM certPool pemServerCA in
    if negb ok then
      ret (None, Some (fmt_Errorf "failed to add server CA's certificate"))
    else
      let config :=
        {| RootCAs := Some certPool;
           Certificates := []; GetCertificate := None; NextProtos := [];
           ClientAuth := NoClientCert; InsecureSkipVerify := false |} in
      ret (Some (credentials_NewTLS config), None)
  end.

(** ** config.go: the CA certificate of a host *)

(** [for _, cert := range certs { if cert.IsCA { return cert, nil } }] *)
Fixpoint getCACert_range (certs : list x509_Certificate) : option x509_Certificate :=
  match certs with
  | [] => None
  | cert :: certs' => if IsCA cert then Some cert else getCACert_range certs'
  end.

Definition getCACert (domain : string) : Go (option x509_Certificate * option error) :=
  let conf :=
    {| InsecureSkipVerify := true;
       Certificates := []; GetCertificate := None; RootCAs := None; NextProtos := [];
       ClientAuth := NoClientCert |} in
  let* '(conn, err) := tls_Dial "tcp" (fmt_Sprintf_s_443 domain) conf in
  match err, conn with
  | Some e, _ => ret (None, Some e)
  | None, None => panic "invalid memory address or nil pointer dereference"
  | None, Some conn =>
    defer (tls_Conn_Close conn) (
      let certs := PeerCertificates (tls_Conn_ConnectionState conn) in
      match getCACert_range certs with
      | Some cert => ret (Some cert, None)
      | None => ret (None, Some (fmt_Errorf "unable to get CA from server: cert does not exist"))
      end)
  end.

(** [cert.Raw] through a [*x509.Certificate]. *)
Definition x509_Certificate_Raw (cert : option x509_Certificate) : Go bytes :=
  match cert with
  | Some c => ret (Raw c)
  | None => panic "invalid memory address or nil pointer dereference"
  end.

(** A [nil] slice has no bytes. *)
Definition slice_of (b : option bytes) : bytes := default [] b.

(** The octal literal [0644]. *)
Definition perm_0644 : Z := 6 * 64 + 4 * 8 + 4.

Definition DownloadCACert (outputPath domain : string) : Go (option error) :=
  let* '(cert, err) := getCACert domain in
  match err with
  | Some e => ret (Some e)
  | None =>
    let* raw := x509_Certificate_Raw cert in
    let publicKeyBlock :=
      {| Type_ := "CERTIFICATE";
         Bytes := raw;
         Headers := ∅ |} in
    let publicKeyPem := pem_EncodeToMemory publicKeyBlock in
    ioutil_WriteFile outputPath (slice_of publicKeyPem) perm_0644
  end.

(** ** package certmagic: functions *)

Definition LetsEncryptStagingCA : string :=
  "https://acme-staging-v02.api.letsencrypt.org/directory".
Definition LetsEncryptProductionCA : string :=
  "https://acme-v02.api.letsencrypt.org/directory".

Definition certmagic_NewCache (opts : certmagic_CacheOptions) : Go certmagic_Cache :=
  match GetConfigForCert opts with
  | Some _ => ret {| cache_options := opts |}
  | None => panic "cannot create cache without GetConfigForCert"
  end.

(** [ManageSync]: obtains the certificates of [domainNames] from the
    configuration's issuer before it returns. *)
Definition certmagic_Config_ManageSync (cfg : certmagic_Config) (domainNames : list string)
  : Go (option error) :=
  fun w => (Returns (issuance w (now w) cfg domainNames),
            record (EvManageSync cfg domainNames) w).

(** ** config.go: automated certificates *)

Definition GenerateTLSConfig (staging : bool) (email : string) (domains : list string)
  : Go (option tls_Config * option error) :=
  let* cache := certmagic_NewCache {| GetConfigForCert := Some returnDefault |} in
  let acmeMgr := {| Agreed := true; Email := email; CA := "" |} in
  let cfg := certmagic_Default in
  let acmeMgr :=
    if staging then
      {| CA := LetsEncryptStagingCA; Email := Email acmeMgr; Agreed := Agreed acmeMgr |}
    else
      {| CA := LetsEncryptProductionCA; Email := Email acmeMgr; Agreed := Agreed acmeMgr |} in
  let myAcme := certmagic_NewACMEManager cfg acmeMgr in
  let magic := certmagic_New cache cfg in
  let magic := {| Issuer := Some myAcme; certCache := certCache magic |} in
  let* err := certmagic_Config_ManageSync magic domains in
  match err with
  | Some e => ret (None, Some e)
  | None => ret (Some (certmagic_Config_TLSConfig magic), None)
  end.

End Package.
(** ** config.go: the remaining helpers *)

(** *** Timestamps *)

(** [t.UnixNano()]: the nanoseconds since the epoch, wrapped to int64. *)
Definition time_Time_UnixNano (t : time_Time) : Z :=
  int64 (int64 (time_sec t * 1000000000) + int64 (time_nsec t)).

(** The wall clock: what [time.Now] reads at each moment. *)
Class Clock := { time_Now : nat -> time_Time }.

Definition CurrentTimestamp `{Clock} : Go Z :=
  fun w => (Returns (time_Time_UnixNano (time_UTC (time_Now (now w)))), w).

(** *** DedupSlice *)

(** One round of the loop: [keys] is the map, [list] the slice built. *)
Definition DedupSlice_round (st : gmap string bool * list string) (entry : string)
  : gmap string bool * list string :=
  let '(keys, list) := st in
  match keys !! entry with
  | Some _ => (keys, list)
  | None => (<[entry := true]> keys, list ++ [entry])
  end.

Definition DedupSlice (stringSlice : list string) : list string :=
  snd (fold_left DedupSlice_round stringSlice (∅, [])).

(** *** DecodeB64 *)

(** [base64.CorruptInputError(n)] *)
Definition base64_CorruptInputError (n : nat) : error :=
  errors_New ("illegal base64 data at input byte " +:+ pretty n).

(** The bytes of a quantum of two, three or four six-bit digits. *)
Definition base64_quantum_bytes (q : list Z) : bytes :=
  let val := base64_quantum (nth 0 q 0) (nth 1 q 0) (nth 2 q 0) (nth 3 q 0) in
  take (length q - 1)
       [byte_of_Z (Z.shiftr val 16); byte_of_Z (Z.shiftr val 8); byte_of_Z (Z.shiftr val 0)].

(** [RawStdEncoding.Decode], the unpadded encoding that tolerates loose
    trailing bits: [si] is the index of the next byte of the input, [q] the
    digits of the quantum being read, [out] the bytes of the quanta read in
    full. New-line characters are skipped; any other byte outside the
    alphabet is an error at its index; a lone last digit is an error at the
    last index. With an error the bytes decoded so far are returned too. *)
Fixpoint base64_RawDecode (src : bytes) (si : nat) (q : list Z) (out : bytes)
  : bytes * option error :=
  match src with
  | [] =>
    match q with
    | [] => (out, None)
    | [_] => (out, Some (base64_CorruptInputError (si - 1)))
    | _ => (out ++ base64_quantum_bytes q, None)
    end
  | c :: src' =>
    match base64_decodeMap c with
    | Some d =>
      let q' := q ++ [d] in
      if bool_decide (length q' = 4%nat)
      then base64_RawDecode src' (S si) [] (out ++ base64_quantum_bytes q')
      else base64_RawDecode src' (S si) q' out
    | None =>
      if bool_decide (c = x0a \/ c = x0d) then base64_RawDecode src' (S si) q out
      else (out, Some (base64_CorruptInputError si))
    end
  end.

Definition base64_RawStdEncoding_DecodeString (s : string) : bytes * option error :=
  base64_RawDecode (bytes_of s) 0 [] [].

Definition DecodeB64 (i : string) : bytes * option error :=
  base64_RawStdEncoding_DecodeString i.

(** [RawStdEncoding.Encode]: as [StdEncoding] without the padding. *)
Fixpoint base64_RawEncode (src : bytes) : bytes :=
  match src with
  | s0 :: s1 :: s2 :: rest =>
    let val := Z.lor (Z.lor (Z.shiftl (byte_to_Z s0) 16) (Z.shiftl (byte_to_Z s1) 8))
                     (byte_to_Z s2) in
    base64_encode (Z.land (Z.shiftr val 18) 63) ::
    base64_encode (Z.land (Z.shiftr val 12) 63) ::
    base64_encode (Z.land (Z.shiftr val 6) 63) ::
    base64_encode (Z.land val 63) :: base64_RawEncode rest
  | [s0; s1] =>
    let val := Z.lor (Z.shiftl (byte_to_Z s0) 16) (Z.shiftl (byte_to_Z s1) 8) in
    [base64_encode (Z.land (Z.shiftr val 18) 63);
     base64_encode (Z.land (Z.shiftr val 12) 63);
     base64_encode (Z.land (Z.shiftr val 6) 63)]
  | [s0] =>
    let val := Z.shiftl (byte_to_Z s0) 16 in
    [base64_encode (Z.land (Z.shiftr val 18) 63);
     base64_encode (Z.land (Z.shiftr val 12) 63)]
  | [] => []
  end.

(** *** The file tree: Stat, ReadDir, Walk *)

Record os_FileInfo := { fi_Name : string; fi_IsDir : bool }.

(** An entry met by [godirwalk.Walk]. *)
Record godirwalk_Dirent := { de_Name : string; de_IsRegular : bool }.

(** What the file system holds besides the contents of regular files, and
    how it answers a listing or a walk. *)
Class FileTree := {
  (** the paths that are directories *)
  directories : gset string;
  (** a path that cannot be examined: permissions on the way, I/O *)
  stat_fault : nat -> string -> option error;
  (** the entries of a directory as [f.Readdir] lists them, or the error *)
  readdir : nat -> string -> error + list os_FileInfo;
  (** the entries [godirwalk.Walk] hands to the callback, in its order *)
  walk : nat -> string -> list (string * godirwalk_Dirent);
  (** [os.IsNotExist] *)
  os_IsNotExist : option error -> bool
}.

Fixpoint bytes_lastElement (rev_path : bytes) : bytes :=
  match rev_path with
  | [] => []
  | c :: rest => if bool_decide (c = "/"%byte) then [] else c :: bytes_lastElement rest
  end.

(** [filepath.Base] with the separator [/]: the last element of the path,
    trailing separators dropped. *)
Definition filepath_Base (path : string) : string :=
  if bool_decide (path = ""%string) then "."%string else
  let p := bytes_TrimRight (bytes_of path) ["/"%byte] in
  let last := reverse (bytes_lastElement (reverse p)) in
  if bool_decide (last = []) then "/"%string else string_of_list_byte last.

Section FileTreeHelpers.
Context `{FileTree}.

(** [os.Stat]: the description of a regular file or of a directory, or
    [nil] and the error. *)
Definition os_Stat (name : string) : Go (option os_FileInfo * option error) :=
  fun w =>
    match stat_fault (now w) name with
    | Some e => (Returns (None, Some e), w)
    | None =>
      match files w !! name with
      | Some _ =>
        (Returns (Some {| fi_Name := filepath_Base name; fi_IsDir := false |}, None), w)
      | None =>
        if bool_decide (name ∈ directories)
        then (Returns (Some {| fi_Name := filepath_Base name; fi_IsDir := true |}, None), w)
        else (Returns (None, Some (ENOENT "stat" name)), w)
      end
    end.

(** [info.IsDir()] through the interface value. *)
Definition os_FileInfo_IsDir (info : option os_FileInfo) : Go bool :=
  match info with
  | Some fi => ret (fi_IsDir fi)
  | None => panic "invalid memory address or nil pointer dereference"
  end.

Definition FileExists (filename : string) : Go bool :=
  let* '(info, err) := os_Stat filename in
  if os_IsNotExist err then ret false
  else
    let* d := os_FileInfo_IsDir info in
    ret (negb d).

Definition PathExists (path : string) : Go (bool * option error) :=
  let* '(_, err) := os_Stat path in
  match err with
  | None => ret (true, None)
  | Some e =>
    if os_IsNotExist err then ret (false, None)
    else ret (false, Some e)
  end.

Definition IsDirectory (path : string) : Go (bool * option error) :=
  let* '(fileInfo, err) := os_Stat path in
  match err with
  | Some e => ret (false, Some e)
  | None =>
    let* d := os_FileInfo_IsDir fileInfo in
    ret (d, err)
  end.

(** [sort.SliceStable] with [less]: elements are put in order and equal
    ones keep theirs. Written as insertion from the left; every stable sort
    gives this slice. *)
Fixpoint sort_insert {A} (less : A -> A -> bool) (x : A) (sorted : list A) : list A :=
  match sorted with
  | [] => [x]
  | y :: sorted' =>
    if less x y then x :: y :: sorted' else y :: sort_insert less x sorted'
  end.

Definition sort_SliceStable {A} (less : A -> A -> bool) (s : list A) : list A :=
  fold_left (fun sorted x => sort_insert less x sorted) s [].

(** [files[i].Name() < files[j].Name()]: strings compare byte by byte. *)
Definition byName (a b : os_FileInfo) : bool := String.ltb (fi_Name a) (fi_Name b).

(** [ioutil.ReadDir]: the entries of the directory sorted by name. The names
    in a directory differ, so the sort it uses gives the same slice. *)
Definition ioutil_ReadDir (dirname : string) : Go (list os_FileInfo * option error) :=
  fun w =>
    match readdir (now w) dirname with
    | inl e => (Returns ([], Some e), w)
    | inr list => (Returns (sort_SliceStable byName list, None), w)
    end.

Definition ListFiles (dirpath : string) : Go (list os_FileInfo * option error) :=
  let* '(files, err) := ioutil_ReadDir dirpath in
  match err with
  | Some e => ret ([], Some e)
  | None =>
    let files := sort_SliceStable byName files in
    ret (files, None)
  end.

(** The callback of [LookupFile]; [matched] is the variable it captures. *)
Definition LookupFile_callback (contains : string) (matched : string)
    (visit : string * godirwalk_Dirent) : string :=
  let '(osPathname, de) := visit in
  if de_IsRegular de && strings_Contains (de_Name de) contains
  then osPathname
  else matched.

(** [godirwalk.Walk] calls the callback on every entry it meets; the
    callback never fails, and the error of the walk is dropped. *)
Definition LookupFile (dirname contains : string) : Go (string * option error) :=
  fun w =>
    let matched := fold_left (LookupFile_callback contains) (walk (now w) dirname) ""%string in
    if bool_decide (matched = ""%string)
    then (Returns (""%string,
                   Some (fmt_Errorf ("file contains " +:+ contains +:+ " not found"))), w)
    else (Returns (matched, None), w).

End FileTreeHelpers.


(** ** The vocabulary of the statements *)

(** A character of [legalChars]. *)
Definition legal (c : byte) : Prop := c ∈ bytes_of legalChars.

(** The base64 alphabet: sixty-four characters, none of them the padding,
    a line break, a blank, a dash or a colon. *)
Definition base64_char (c : byte) : Prop := c ∈ bytes_of encodeStd.

Definition plain (c : byte) : Prop :=
  c <> x0a /\ c <> x0d /\ c <> " "%byte /\ c <> x09 /\ c <> "-"%byte /\ c <> ":"%byte.

#[global] Instance plain_dec c : Decision (plain c).
Proof. unfold plain. apply _. Defined.

(** The six-bit digit of a 24-bit group at a shift. *)
Definition digit (val s : Z) : Z := Z.land (Z.shiftr val s) 63.

(** A line of such characters has no line break and no trailing blank:
    [getLine] reads it back as it is. *)
Definition solid (c : byte) : Prop :=
  c <> x0a /\ c <> x0d /\ c <> " "%byte /\ c <> x09.

(** The characters between the BEGIN and the END line: base64 text and
    line breaks. *)
Definition armour (c : byte) : Prop :=
  c <> "-"%byte /\ c <> ":"%byte /\ c <> " "%byte /\ c <> x09 /\ c <> x0d.

(** What follows the BEGIN and the END mark of a certificate block. *)
Definition certLine : bytes := bytes_of "CERTIFICATE-----".

Definition CERTIFICATE_block (raw : bytes) : pem_Block :=
  {| Type_ := "CERTIFICATE"; Bytes := raw; Headers := ∅ |}.

(** The calls made between two states of the world. *)
Definition calls (w w' : World) : list Event := drop (length (trace w)) (trace w').

(** A file that is not there, and a file that cannot be read at a moment. *)
Definition missing (w : World) (filename : string) : Prop :=
  files w !! filename = None.

Definition unreadable (w : World) (t : nat) (filename : string) : Prop :=
  is_Some (read_fault w t filename).

(** The configuration [getCACert] dials with, and the handshake it
    performs: TCP, port 443 of the domain, no verification of the peer. *)
Definition getCACert_conf : tls_Config :=
  {| InsecureSkipVerify := true;
     Certificates := []; GetCertificate := None; RootCAs := None; NextProtos := [];
     ClientAuth := NoClientCert |}.

Definition getCACert_handshake (w : World) (domain : string)
  : error + list x509_Certificate :=
  handshake w (now w) "tcp" (domain +:+ ":443") getCACert_conf.

Definition dial_event (domain : string) : Event :=
  EvDial "tcp" (domain +:+ ":443") getCACert_conf.

Definition close_event (domain : string) : Event :=
  EvClose (domain +:+ ":443").

(** The two errors the package makes itself. *)
Definition errNoCA : error :=
  fmt_Errorf "unable to get CA from server: cert does not exist".

Definition errNoServerCA : error :=
  fmt_Errorf "failed to add server CA's certificate".

(** The configuration [LoadTLSKeypair] builds around a certificate, and
    the one [ClientLoadCA] builds around a pool. *)
Definition server_config (serverCert : tls_Certificate) : tls_Config :=
  {| Certificates := [serverCert];
     ClientAuth := NoClientCert;
     GetCertificate := None; RootCAs := None; NextProtos := [];
     InsecureSkipVerify := false |}.

Definition client_config (certPool : x509_CertPool) : tls_Config :=
  {| RootCAs := Some certPool;
     Certificates := []; GetCertificate := None; NextProtos := [];
     ClientAuth := NoClientCert; InsecureSkipVerify := false |}.

(** The issuer settings [GenerateTLSConfig] asks certmagic for, and the
    configuration it hands to [ManageSync]. *)
Definition acme_template (staging : bool) (email : string) : certmagic_ACMEManager :=
  {| CA := if staging then LetsEncryptStagingCA else LetsEncryptProductionCA;
     Email := email;
     Agreed := true |}.

Definition managed_config `{Libraries} (staging : bool) (email : string)
  : certmagic_Config :=
  {| Issuer :=
       Some (certmagic_NewACMEManager certmagic_Default (acme_template staging email));
     certCache :=
       certCache (certmagic_New
                    {| cache_options := {| GetConfigForCert := Some returnDefault |} |}
                    certmagic_Default) |}.


(** ** The vocabulary of the further statements *)

(** [DedupSlice] from the middle of its loop: the slice built from [l] when
    the map already holds [keys]. *)
Definition DedupSlice_from (keys : gmap string bool) (l : list string) : list string :=
  snd (fold_left DedupSlice_round l (keys, [])).

(** A byte that [RawStdEncoding] reads: a character of the alphabet, or a
    line break, which it skips. *)
Definition base64_raw_ok (c : byte) : Prop :=
  is_Some (base64_decodeMap c) \/ c = x0a \/ c = x0d.

(** Names in byte order, the order of [<=] on Go strings. *)
Definition name_le (a b : os_FileInfo) : Prop :=
  String.leb (fi_Name a) (fi_Name b) = true.

(** An entry the callback of [LookupFile] takes. *)
Definition LookupFile_match (contains : string) (visit : string * godirwalk_Dirent) : bool :=
  de_IsRegular (snd visit) && strings_Contains (de_Name (snd visit)) contains.

Definition errNotFound (contains : string) : error :=
  fmt_Errorf ("file contains " +:+ contains +:+ " not found").

(** The error of a nil dereference. *)
Definition nil_dereference : string := "invalid memory address or nil pointer dereference".

(** ** Example worlds *)

(** No files, no faults, nobody listening, no random bytes. *)
Definition empty_world : World :=
  {| files := ∅;
     read_fault := fun _ _ => None;
     create_fault := fun _ _ => None;
     write_fault := fun _ _ => None;
     handshake := fun _ _ _ _ => inl (errors_New "dial tcp: connection refused");
     issuance := fun _ _ _ => None;
     entropy := [];
     entropy_err := errors_New "EOF";
     trace := [] |}.

(** A random source that delivers four bytes: 0x05, 0xff, 0x41, 0x40. *)
Definition dice_world : World := with_entropy [x05; xff; x41; x40] empty_world.

(** A stand-in for the parsers of package tls and package x509 and for
    certmagic, for the examples: a certificate is a CERTIFICATE block, its
    key is the PRIVATE KEY block with the same bytes, and every certificate
    is a CA. *)
Definition demo_X509KeyPair (certPEMBlock keyPEMBlock : bytes) : error + tls_Certificate :=
  match fst (pem_Decode certPEMBlock), fst (pem_Decode keyPEMBlock) with
  | None, _ => inl (errors_New "tls: failed to find any PEM data in certificate input")
  | Some _, None => inl (errors_New "tls: failed to find any PEM data in key input")
  | Some c, Some k =>
    if negb (bool_decide (Type_ c = "CERTIFICATE")) then
      inl (errors_New "tls: failed to find certificate PEM data in certificate input")
    else if negb (bool_decide (Type_ k = "PRIVATE KEY")) then
      inl (errors_New "tls: failed to find PEM block with type ending in PRIVATE KEY")
    else if bool_decide (Bytes c = Bytes k) then
      inr {| Certificate := [Bytes c]; PrivateKey := Bytes k |}
    else inl (errors_New "tls: private key does not match public key")
  end.

Fixpoint demo_certificatesOfPEM_loop (fuel : nat) (data : bytes) : list x509_Certificate :=
  match fuel with
  | O => []
  | S fuel' =>
    match pem_Decode data with
    | (Some b, rest) =>
      (if bool_decide (Type_ b = "CERTIFICATE")
       then [{| Raw := Bytes b; IsCA := true; Subject := "" |}] else [])
      ++ demo_certificatesOfPEM_loop fuel' rest
    | (None, _) => []
    end
  end.

Definition demo_libraries : Libraries :=
  {| tls_X509KeyPair := demo_X509KeyPair;
     x509_certificatesOfPEM := fun data => demo_certificatesOfPEM_loop (length data) data;
     certmagic_Default := {| Issuer := None; certCache := None |};
     certmagic_NewACMEManager := fun _ template => template;
     certmagic_New := fun cache cfg => {| Issuer := Issuer cfg; certCache := Some cache |};
     certmagic_Config_TLSConfig := fun cfg =>
       {| Certificates := []; GetCertificate := Some (certmagic_GetCertificate cfg);
          RootCAs := None; NextProtos := ["acme-tls/1"%string];
          ClientAuth := NoClientCert; InsecureSkipVerify := false |} |}.

(** Two hosts: one presents a leaf and then its root, the other a leaf
    alone; nobody else answers. *)
Definition leaf_cert : x509_Certificate :=
  {| Raw := bytes_of "leaf-der"; IsCA := false; Subject := "CN=example.test" |}.
Definition root_cert : x509_Certificate :=
  {| Raw := bytes_of "root-der"; IsCA := true; Subject := "CN=Example Root CA" |}.

Definition web_world : World :=
  {| files := {[ "ca.pem"%string := bytes_of "stale" ]};
     read_fault := fun _ _ => None;
     create_fault := fun _ filename =>
       if bool_decide (filename = "/proc/ca.pem"%string)
       then Some (errors_New "open /proc/ca.pem: permission denied") else None;
     write_fault := fun _ _ => None;
     handshake := fun _ _ addr _ =>
       if bool_decide (addr = "example.test:443"%string) then inr [leaf_cert; root_cert]
       else if bool_decide (addr = "plain.test:443"%string) then inr [leaf_cert]
       else inl (errors_New "dial tcp: connection refused");
     issuance := fun _ _ _ => None;
     entropy := [];
     entropy_err := errors_New "EOF";
     trace := [] |}.

(** A disk with a certificate, its key and another key; the certificate
    cannot be read at the first moment, only later. *)
Definition pem_text (type : string) (body : string) : bytes :=
  slice_of (pem_EncodeToMemory {| Type_ := type; Headers := ∅; Bytes := bytes_of body |}).

Definition disk_files : gmap string bytes :=
  {[ "server.crt"%string := pem_text "CERTIFICATE" "server";
     "server.key"%string := pem_text "PRIVATE KEY" "server";
     "other.key"%string := pem_text "PRIVATE KEY" "other";
     "notes.txt"%string := bytes_of "no certificate here" ]}.

Definition disk_world : World := with_files disk_files empty_world.

Definition flaky_disk_world : World :=
  {| files := disk_files;
     read_fault := fun t filename =>
       if bool_decide (t = 0%nat) then Some (errors_New "read: input/output error") else None;
     create_fault := fun _ _ => None;
     write_fault := fun _ _ => None;
     handshake := handshake empty_world;
     issuance := fun _ _ _ => None;
     entropy := [];
     entropy_err := errors_New "EOF";
     trace := [] |}.


(** A clock that shows 13 September 2020, 12:26:40 UTC and 123456789 ns,
    and moves on a second with every call. *)
Definition demo_clock : Clock :=
  {| time_Now := fun t =>
       {| time_sec := 1600000000 + Z.of_nat t; time_nsec := 123456789; time_utc := false |} |}.

(** A directory of certificates with a subdirectory; one path elsewhere
    cannot be examined. [os.IsNotExist] is told by the text of the error. *)
Definition demo_IsNotExist (err : option error) : bool :=
  match err with
  | Some e => bytes_HasSuffix (bytes_of (Error e)) (bytes_of ": no such file or directory")
  | None => false
  end.

Definition demo_tree : FileTree :=
  {| directories := {[ "/etc/certs"%string; "/etc/certs/old"%string ]};
     stat_fault := fun _ path =>
       if bool_decide (path = "/root/ca.pem"%string)
       then Some (errors_New "stat /root/ca.pem: permission denied") else None;
     readdir := fun _ dirname =>
       if bool_decide (dirname = "/etc/certs"%string)
       then inr [ {| fi_Name := "server.key"; fi_IsDir := false |};
                  {| fi_Name := "old"; fi_IsDir := true |};
                  {| fi_Name := "ca.pem"; fi_IsDir := false |} ]
       else inl (ENOENT "open" dirname);
     walk := fun _ dirname =>
       if bool_decide (dirname = "/etc/certs"%string)
       then [ ("/etc/certs"%string, {| de_Name := "certs"; de_IsRegular := false |});
              ("/etc/certs/ca.pem"%string, {| de_Name := "ca.pem"; de_IsRegular := true |});
              ("/etc/certs/server.key"%string,
               {| de_Name := "server.key"; de_IsRegular := true |});
              ("/etc/certs/old"%string, {| de_Name := "old"; de_IsRegular := false |});
              ("/etc/certs/old/ca.pem.bak"%string,
               {| de_Name := "ca.pem.bak"; de_IsRegular := true |}) ]
       else [];
     os_IsNotExist := demo_IsNotExist |}.

Definition tree_world : World :=
  with_files {[ "/etc/certs/ca.pem"%string := bytes_of "ca";
                "/etc/certs/server.key"%string := bytes_of "key";
                "/etc/certs/old/ca.pem.bak"%string := bytes_of "old ca" ]} empty_world.

(** The disk is full after ten bytes. *)
Definition full_disk_world : World :=
  {| files := files web_world;
     read_fault := read_fault web_world;
     create_fault := create_fault web_world;
     write_fault := fun _ _ => Some (10%nat, errors_New "write ca.pem: no space left on device");
     handshake := handshake web_world;
     issuance := issuance web_world;
     entropy := entropy web_world;
     entropy_err := entropy_err web_world;
     trace := [] |}.
(** * Properties *)

(** ** Timestamps *)

Lemma wrap_small w x : 0 < w -> - 2 ^ (w - 1) <= x < 2 ^ (w - 1) -> wrap w x = x.
Proof.
  intros Hw Hx. unfold wrap.
  assert (H2 : 2 ^ w = 2 * 2 ^ (w - 1)).
  { replace w with (Z.succ (w - 1)) at 1 by lia. rewrite Z.pow_succ_r; lia. }
  rewrite Z.mod_small; lia.
Qed.

Lemma int64_small x : - 2 ^ 63 <= x < 2 ^ 63 -> int64 x = x.
Proof. intros H. apply wrap_small; [lia | exact H]. Qed.

Lemma int32_small x : - 2 ^ 31 <= x < 2 ^ 31 -> int32 x = x.
Proof. intros H. apply wrap_small; [lia | exact H]. Qed.

Lemma time_Unix_nonneg n :
  0 <= n < 2 ^ 63 ->
  time_Unix 0 n =
  {| time_sec := n / 1000000000; time_nsec := n mod 1000000000; time_utc := false |}.
Proof.
  intros Hn.
  assert (Hq : 0 <= n / 1000000000 <= n).
  { split; [apply Z.div_pos; lia | apply Z.div_le_upper_bound; lia]. }
  assert (Hm : 0 <= n mod 1000000000 < 1000000000) by (apply Z.mod_pos_bound; lia).
  assert (Hdm : n = 1000000000 * (n / 1000000000) + n mod 1000000000)
    by (apply Z.div_mod; lia).
  unfold time_Unix, go_div.
  rewrite Z.quot_div_nonneg by lia.
  destruct (n <? 0) eqn:Hneg; [apply Z.ltb_lt in Hneg; lia |].
  destruct (1000000000 <=? n) eqn:Hbig; cbn [orb].
  - rewrite (int64_small (n / 1000000000)) by lia.
    rewrite (int64_small (0 + n / 1000000000)) by lia.
    rewrite (int64_small (n / 1000000000 * 1000000000)) by lia.
    replace (n - n / 1000000000 * 1000000000) with (n mod 1000000000) by lia.
    rewrite (int64_small (n mod 1000000000)) by lia.
    destruct (n mod 1000000000 <? 0) eqn:Hlt; [apply Z.ltb_lt in Hlt; lia |].
    rewrite (int32_small (n mod 1000000000)) by lia.
    reflexivity.
  - apply Z.leb_gt in Hbig.
    rewrite Z.div_small, Z.mod_small by lia.
    rewrite int32_small by lia. reflexivity.
Qed.

Lemma UnixToUtcTS_fields n :
  0 <= n < 2 ^ 63 ->
  Seconds (UnixToUtcTS n) = n / 1000000000 /\
  Nanos (UnixToUtcTS n) = n mod 1000000000.
Proof.
  intros Hn.
  assert (Hq : 0 <= n / 1000000000 <= n).
  { split; [apply Z.div_pos; lia | apply Z.div_le_upper_bound; lia]. }
  assert (Hm : 0 <= n mod 1000000000 < 1000000000) by (apply Z.mod_pos_bound; lia).
  unfold UnixToUtcTS. rewrite time_Unix_nonneg by exact Hn.
  unfold timestamppb_New, time_UTC, time_Time_Unix, time_Time_Nanosecond.
  cbn [Seconds Nanos time_sec time_nsec].
  rewrite int64_small by lia. rewrite int32_small by lia. split; reflexivity.
Qed.

(** C10: for every non-negative int64 [n], converting to a timestamp and
    back yields [n mod 1000000000]: [UnixToUtcTS] reads its argument as
    nanoseconds (the seconds field is [n / 1000000000]) and [TsToUnixUTC]
    returns only the nanoseconds field, so the two are not inverses: every
    [n] of at least one second comes back changed. *)
Theorem TsToUnixUTC_UnixToUtcTS (n : Z) :
  0 <= n < 2 ^ 63 ->
  TsToUnixUTC (Some (UnixToUtcTS n)) = n mod 1000000000 /\
  Seconds (UnixToUtcTS n) = n / 1000000000 /\
  (1000000000 <= n -> TsToUnixUTC (Some (UnixToUtcTS n)) <> n).
Proof.
  intros Hn. destruct (UnixToUtcTS_fields n Hn) as [Hs Hns].
  assert (Hm : 0 <= n mod 1000000000 < 1000000000) by (apply Z.mod_pos_bound; lia).
  assert (Hr : TsToUnixUTC (Some (UnixToUtcTS n)) = n mod 1000000000).
  { unfold TsToUnixUTC, GetNanos. rewrite Hns. apply int64_small. lia. }
  split; [exact Hr | split; [exact Hs |]].
  intros Hbig. rewrite Hr. lia.
Qed.

Lemma TsToUnixUTC_UnixToUtcTS_witness :
  TsToUnixUTC (Some (UnixToUtcTS 1500000000)) = 1500000000 mod 1000000000 /\
  Seconds (UnixToUtcTS 1500000000) = 1500000000 / 1000000000 /\
  (1000000000 <= 1500000000 -> TsToUnixUTC (Some (UnixToUtcTS 1500000000)) <> 1500000000).
Proof. apply (TsToUnixUTC_UnixToUtcTS 1500000000). lia. Defined.
(** ** GenRandomByteSlice *)

Lemma byte_to_Z_range x : 0 <= byte_to_Z x < 256.
Proof.
  unfold byte_to_Z. pose proof (Byte.to_N_bounded x). lia.
Qed.

Lemma fold_SetBytes_nonneg buf acc :
  0 <= acc -> Forall (fun x => 0 <= x) buf ->
  0 <= fold_left (fun acc x => acc * 256 + x) buf acc.
Proof.
  revert acc. induction buf as [|x buf IH]; intros acc Hacc Hall; [exact Hacc |].
  inversion Hall; subst. cbn [fold_left]. apply IH; [lia | assumption].
Qed.

Lemma mask_first_nonneg b buf : Forall (fun x => 0 <= x) (mask_first b buf).
Proof.
  destruct buf as [|x rest]; [constructor |].
  cbn [mask_first]. constructor.
  - apply Z.land_nonneg. left. apply byte_to_Z_range.
  - apply Forall_map. apply Forall_true. intros y. apply byte_to_Z_range.
Qed.

Lemma rand_Int_loop_range k b max src : forall filled n rest,
  rand_Int_loop k b max filled src = (Some n, rest) -> 0 <= n < max.
Proof.
  induction src as [|x src IH]; intros filled n rest H; cbn [rand_Int_loop] in H.
  - discriminate.
  - destruct (decide (length (filled ++ [x]) = k)).
    + destruct (big_SetBytes (mask_first b (filled ++ [x])) <? max) eqn:Hlt.
      * inversion H; subst. apply Z.ltb_lt in Hlt. split; [| exact Hlt].
        apply fold_SetBytes_nonneg; [lia | apply mask_first_nonneg].
      * eapply IH; exact H.
    + eapply IH; exact H.
Qed.

(** [rand.Int] with a positive bound returns a number below the bound, or
    the error of the random source; it does not panic. *)
Lemma rand_Int_returns max w :
  0 < max ->
  exists w', entropy_err w' = entropy_err w /\
    ((exists n, 0 <= n < max /\ rand_Int max w = (Returns (Some n, None), w')) \/
     rand_Int max w = (Returns (None, Some (entropy_err w)), w')).
Proof.
  intros Hmax. unfold rand_Int.
  destruct (max <=? 0) eqn:Hle; [apply Z.leb_le in Hle; lia |].
  destruct (big_BitLen (max - 1) =? 0).
  - exists w. split; [reflexivity |]. left. exists 0. split; [lia | reflexivity].
  - match goal with
    | |- context [rand_Int_loop ?k ?b ?m ?f ?s] =>
        destruct (rand_Int_loop k b m f s) as [[n|] rest] eqn:Hloop
    end.
    + eexists. split; [| left; exists n; split; [| reflexivity]].
      * reflexivity.
      * eapply rand_Int_loop_range; exact Hloop.
    + eexists. split; [| right; reflexivity]. reflexivity.
Qed.

Lemma len_legalChars : len legalChars = 65.
Proof. reflexivity. Qed.

Lemma string_index_legalChars n w :
  0 <= n < 65 ->
  exists c, legal c /\ string_index legalChars (int64 n) w = (Returns c, w).
Proof.
  intros Hn. unfold string_index. rewrite int64_small by lia.
  destruct (n <? 0) eqn:Hneg; [apply Z.ltb_lt in Hneg; lia |].
  destruct (bytes_of legalChars !! Z.to_nat n) as [c|] eqn:Hc.
  - exists c. split; [| reflexivity].
    unfold legal. eapply list_elem_of_lookup_2. exact Hc.
  - apply lookup_ge_None in Hc.
    assert (Hlen : length (bytes_of legalChars) = 65%nat) by reflexivity.
    lia.
Qed.

Lemma GenRandomByteSlice_loop_ok todo : forall rnd w r w',
  GenRandomByteSlice_loop todo rnd w = (Returns (r, None), w') ->
  exists tail, r = rnd ++ tail /\ length tail = todo /\ Forall legal tail.
Proof.
  induction todo as [|todo IH]; intros rnd w r w' H; cbn [GenRandomByteSlice_loop] in H.
  - inversion H; subst. exists []. rewrite app_nil_r. repeat split. constructor.
  - unfold bind in H. rewrite len_legalChars in H.
    rewrite (int64_small 65) in H by lia. unfold big_NewInt in H.
    destruct (rand_Int_returns 65 w) as [w1 [_ [[n [Hn Hr]] | Hr]]]; [lia | |];
      rewrite Hr in H; [| discriminate].
    cbn [big_Int64 ret] in H.
    destruct (string_index_legalChars n w1 Hn) as [c [Hc Hi]].
    rewrite Hi in H.
    destruct (IH _ _ _ _ H) as [tail [Hr' [Hlen Hall]]].
    exists (c :: tail). rewrite Hr', <- app_assoc. repeat split.
    + cbn. rewrite Hlen. reflexivity.
    + constructor; assumption.
Qed.



(** A negative length panics in [make]. *)
Example GenRandomByteSlice_negative w :
  GenRandomByteSlice (-1) w = (Panics "makeslice: len out of range", w).
Proof. reflexivity. Qed.

(** C9: a successful [GenRandomByteSlice n], [n] non-negative, returns a
    slice of length [2 * n]: its first [n] bytes are zero, left from
    [make], and its last [n] bytes are characters of the 65-character
    [legalChars], appended after them. *)
Theorem GenRandomByteSlice_twice_length (n : Z) (w w' : World) (rnd : bytes) :
  0 <= n ->
  GenRandomByteSlice n w = (Returns (rnd, None), w') ->
  Z.of_nat (length rnd) = 2 * n /\
  take (Z.to_nat n) rnd = replicate (Z.to_nat n) x00 /\
  Forall legal (drop (Z.to_nat n) rnd) /\
  length (drop (Z.to_nat n) rnd) = Z.to_nat n /\
  len legalChars = 65.
Proof.
  intros Hn H. unfold GenRandomByteSlice, bind, make_bytes in H.
  destruct (n <? 0) eqn:Hneg; [apply Z.ltb_lt in Hneg; lia |].
  cbn [ret] in H.
  destruct (GenRandomByteSlice_loop_ok _ _ _ _ _ H) as [tail [-> [Hlen Hall]]].
  assert (Hrep : length (replicate (Z.to_nat n) x00) = Z.to_nat n)
    by apply length_replicate.
  repeat split.
  - rewrite length_app, Hrep, Hlen. lia.
  - rewrite take_app_length'; [reflexivity | symmetry; exact Hrep].
  - rewrite drop_app_length'; [exact Hall | symmetry; exact Hrep].
  - rewrite drop_app_length'; [exact Hlen | symmetry; exact Hrep].
Qed.

Lemma GenRandomByteSlice_twice_length_witness :
  Z.of_nat (length [x00; x00; "5"; "_"]%byte) = 2 * 2 /\
  take (Z.to_nat 2) [x00; x00; "5"; "_"]%byte = replicate (Z.to_nat 2) x00 /\
  Forall legal (drop (Z.to_nat 2) [x00; x00; "5"; "_"]%byte) /\
  length (drop (Z.to_nat 2) [x00; x00; "5"; "_"]%byte) = Z.to_nat 2 /\
  len legalChars = 65.
Proof.
  apply (GenRandomByteSlice_twice_length 2 dice_world (with_entropy [] dice_world)).
  - lia.
  - vm_compute. reflexivity.
Defined.
(** ** base64 *)

Lemma lor_shiftl_add a b k :
  0 <= k -> 0 <= b < 2 ^ k -> Z.lor (Z.shiftl a k) b = a * 2 ^ k + b.
Proof.
  intros Hk Hb.
  assert (Hland : Z.land (Z.shiftl a k) b = 0).
  { apply Z.bits_inj'. intros n Hn. rewrite Z.land_spec, Z.bits_0.
    destruct (Z.lt_ge_cases n k) as [Hlt | Hge].
    - rewrite Z.shiftl_spec_low by exact Hlt. reflexivity.
    - destruct (Z.eq_dec b 0) as [-> | Hb0].
      + rewrite Z.bits_0. apply andb_false_r.
      + rewrite (Z.bits_above_log2 b n); [apply andb_false_r | lia |].
        apply Z.log2_lt_pow2; [lia |].
        assert (2 ^ k <= 2 ^ n) by (apply Z.pow_le_mono_r; lia). lia. }
  pose proof (Z.add_lor_land (Z.shiftl a k) b) as Hadd.
  rewrite Hland, Z.shiftl_mul_pow2 in Hadd by exact Hk.
  rewrite Z.shiftl_mul_pow2 by exact Hk. lia.
Qed.

Lemma land_63 x : Z.land x 63 = x mod 64.
Proof. change 63 with (Z.ones 6). rewrite Z.land_ones by lia. reflexivity. Qed.

Lemma byte_of_Z_to_Z x : byte_of_Z (byte_to_Z x) = x.
Proof.
  unfold byte_of_Z. pose proof (byte_to_Z_range x).
  rewrite Z.mod_small by lia. unfold byte_to_Z.
  rewrite N2Z.id, Byte.of_to_N. reflexivity.
Qed.

Lemma byte_of_Z_mod x : byte_of_Z (x mod 256) = byte_of_Z x.
Proof. unfold byte_of_Z. rewrite Z.mod_mod by lia. reflexivity. Qed.

Lemma base64_char_plain c : base64_char c -> plain c /\ c <> StdPadding.
Proof.
  revert c. apply Forall_forall.
  apply (bool_decide_unpack _). vm_compute. reflexivity.
Qed.

Lemma StdPadding_plain : plain StdPadding.
Proof. apply (bool_decide_unpack _). vm_compute. reflexivity. Qed.

Lemma base64_encode_char i : 0 <= i < 64 -> base64_char (base64_encode i).
Proof.
  intros Hi. unfold base64_encode, base64_char.
  destruct (bytes_of encodeStd !! Z.to_nat i) as [c|] eqn:Hc.
  - eapply list_elem_of_lookup_2. exact Hc.
  - apply lookup_ge_None in Hc.
    assert (length (bytes_of encodeStd) = 64%nat) by reflexivity. lia.
Qed.

Lemma base64_decodeMap_encode i :
  0 <= i < 64 -> base64_decodeMap (base64_encode i) = Some i.
Proof.
  intros Hi.
  assert (Hall : Forall (fun n => base64_decodeMap (base64_encode (Z.of_nat n))
                                  = Some (Z.of_nat n)) (seq 0 64)).
  { apply (bool_decide_unpack _). vm_compute. reflexivity. }
  rewrite Forall_forall in Hall.
  specialize (Hall (Z.to_nat i)). rewrite Z2Nat.id in Hall by lia.
  apply Hall. apply list_elem_of_In, in_seq. lia.
Qed.

Lemma lor_mul_add a b k :
  0 <= k -> 0 <= b < 2 ^ k -> Z.lor (a * 2 ^ k) b = a * 2 ^ k + b.
Proof.
  intros Hk Hb. rewrite <- (lor_shiftl_add a b k Hk Hb).
  rewrite Z.shiftl_mul_pow2 by exact Hk. reflexivity.
Qed.

Lemma byte_of_Z_eq x y : x mod 256 = byte_to_Z y -> byte_of_Z x = y.
Proof.
  intros Hx. rewrite <- byte_of_Z_mod, Hx. apply byte_of_Z_to_Z.
Qed.

(** The 24-bit group of three bytes, of two bytes and of one byte. *)
Lemma group3_add a b c :
  0 <= a < 256 -> 0 <= b < 256 -> 0 <= c < 256 ->
  Z.lor (Z.lor (Z.shiftl a 16) (Z.shiftl b 8)) c = a * 65536 + b * 256 + c.
Proof.
  intros Ha Hb Hc. rewrite !Z.shiftl_mul_pow2 by lia.
  rewrite (lor_mul_add a (b * 2 ^ 8) 16) by lia.
  replace (a * 2 ^ 16 + b * 2 ^ 8) with ((a * 256 + b) * 2 ^ 8) by lia.
  rewrite lor_mul_add by lia. lia.
Qed.

Lemma group2_add a b :
  0 <= a < 256 -> 0 <= b < 256 ->
  Z.lor (Z.shiftl a 16) (Z.shiftl b 8) = a * 65536 + b * 256.
Proof.
  intros Ha Hb. rewrite !Z.shiftl_mul_pow2 by lia.
  rewrite (lor_mul_add a (b * 2 ^ 8) 16) by lia. lia.
Qed.

Lemma base64_quantum_add d0 d1 d2 d3 :
  0 <= d1 < 64 -> 0 <= d2 < 64 -> 0 <= d3 < 64 ->
  base64_quantum d0 d1 d2 d3 = d0 * 262144 + d1 * 4096 + d2 * 64 + d3.
Proof.
  intros H1 H2 H3. unfold base64_quantum. rewrite !Z.shiftl_mul_pow2 by lia.
  rewrite (lor_mul_add d0 (d1 * 2 ^ 12) 18) by lia.
  replace (d0 * 2 ^ 18 + d1 * 2 ^ 12) with ((d0 * 64 + d1) * 2 ^ 12) by lia.
  rewrite (lor_mul_add _ (d2 * 2 ^ 6) 12) by lia.
  replace ((d0 * 64 + d1) * 2 ^ 12 + d2 * 2 ^ 6)
    with (((d0 * 64 + d1) * 64 + d2) * 2 ^ 6) by lia.
  rewrite (lor_mul_add _ d3 6) by lia. lia.
Qed.

Lemma digit_div val s : 0 <= s -> digit val s = (val / 2 ^ s) mod 64.
Proof. intros Hs. unfold digit. rewrite land_63, Z.shiftr_div_pow2 by exact Hs. reflexivity. Qed.

Lemma digit_range val s : 0 <= s -> 0 <= digit val s < 64.
Proof. intros Hs. rewrite digit_div by exact Hs. apply Z.mod_pos_bound. lia. Qed.

Lemma digits_quantum val :
  0 <= val < 16777216 ->
  base64_quantum (digit val 18) (digit val 12) (digit val 6) (digit val 0) = val.
Proof.
  intros Hv.
  rewrite base64_quantum_add by (apply digit_range; lia).
  rewrite !digit_div by lia.
  change (2 ^ 18) with 262144. change (2 ^ 12) with 4096.
  change (2 ^ 6) with 64. change (2 ^ 0) with 1.
  rewrite Z.div_1_r.
  Z.div_mod_to_equations. lia.
Qed.

Lemma digits_quantum2 val :
  0 <= val < 16777216 -> val mod 64 = 0 ->
  base64_quantum (digit val 18) (digit val 12) (digit val 6) 0 = val.
Proof.
  intros Hv Hm.
  rewrite base64_quantum_add by (try apply digit_range; lia).
  rewrite !digit_div by lia.
  change (2 ^ 18) with 262144. change (2 ^ 12) with 4096. change (2 ^ 6) with 64.
  Z.div_mod_to_equations. lia.
Qed.

Lemma digits_quantum1 val :
  0 <= val < 16777216 -> val mod 4096 = 0 ->
  base64_quantum (digit val 18) (digit val 12) 0 0 = val.
Proof.
  intros Hv Hm.
  rewrite base64_quantum_add by (try apply digit_range; lia).
  rewrite !digit_div by lia.
  change (2 ^ 18) with 262144. change (2 ^ 12) with 4096.
  Z.div_mod_to_equations. lia.
Qed.

Lemma list_ind3 {A} (P : list A -> Prop) :
  P [] -> (forall a, P [a]) -> (forall a b, P [a; b]) ->
  (forall a b c l, P l -> P (a :: b :: c :: l)) ->
  forall l, P l.
Proof.
  intros H0 H1 H2 H3 l.
  assert (Hall : P l /\ (forall a, P (a :: l)) /\ (forall a b, P (a :: b :: l))).
  { induction l as [|x l [IH0 [IH1 IH2]]].
    - repeat split; auto.
    - repeat split; auto. }
  apply Hall.
Qed.

Lemma encode_not_padding val s :
  0 <= s -> bool_decide (base64_encode (digit val s) = StdPadding) = false.
Proof.
  intros Hs. apply bool_decide_eq_false_2.
  apply base64_char_plain, base64_encode_char, digit_range. exact Hs.
Qed.

Lemma decodeMap_digit val s :
  0 <= s -> base64_decodeMap (base64_encode (digit val s)) = Some (digit val s).
Proof. intros Hs. apply base64_decodeMap_encode, digit_range. exact Hs. Qed.

(** Decoding an encoding gives back the bytes. *)
Lemma base64_decodeQuanta_Encode src :
  base64_decodeQuanta (base64_Encode src) = Some src.
Proof.
  induction src as [| a | a b | a b c rest IH] using list_ind3.
  - reflexivity.
  - cbn [base64_Encode].
    pose proof (byte_to_Z_range a) as Ha.
    set (val := Z.shiftl (byte_to_Z a) 16).
    assert (Hval : val = byte_to_Z a * 65536)
      by (unfold val; rewrite Z.shiftl_mul_pow2 by lia; reflexivity).
    change (Z.land (Z.shiftr val 18) 63) with (digit val 18).
    change (Z.land (Z.shiftr val 12) 63) with (digit val 12).
    cbn [base64_decodeQuanta].
    rewrite !bool_decide_eq_true_2 by reflexivity.
    rewrite !decodeMap_digit by lia. cbn [mbind option_bind].
    rewrite digits_quantum1 by (rewrite Hval; Z.div_mod_to_equations; lia).
    f_equal. f_equal. apply byte_of_Z_eq.
    rewrite Z.shiftr_div_pow2, Hval by lia. change (2 ^ 16) with 65536.
    Z.div_mod_to_equations. lia.
  - cbn [base64_Encode].
    pose proof (byte_to_Z_range a) as Ha. pose proof (byte_to_Z_range b) as Hb.
    set (val := Z.lor _ _).
    assert (Hval : val = byte_to_Z a * 65536 + byte_to_Z b * 256)
      by (unfold val; apply group2_add; assumption).
    change (Z.land (Z.shiftr val 18) 63) with (digit val 18).
    change (Z.land (Z.shiftr val 12) 63) with (digit val 12).
    change (Z.land (Z.shiftr val 6) 63) with (digit val 6).
    cbn [base64_decodeQuanta].
    rewrite bool_decide_eq_true_2 by reflexivity.
    rewrite encode_not_padding by lia.
    rewrite !decodeMap_digit by lia. cbn [mbind option_bind].
    rewrite digits_quantum2 by (rewrite Hval; Z.div_mod_to_equations; lia).
    f_equal. f_equal; [| f_equal]; apply byte_of_Z_eq;
      rewrite Z.shiftr_div_pow2, Hval by lia.
    + change (2 ^ 16) with 65536. Z.div_mod_to_equations. lia.
    + change (2 ^ 8) with 256. Z.div_mod_to_equations. lia.
  - cbn [base64_Encode].
    pose proof (byte_to_Z_range a) as Ha. pose proof (byte_to_Z_range b) as Hb.
    pose proof (byte_to_Z_range c) as Hc.
    set (val := Z.lor _ _).
    assert (Hval : val = byte_to_Z a * 65536 + byte_to_Z b * 256 + byte_to_Z c)
      by (unfold val; apply group3_add; assumption).
    change (Z.land (Z.shiftr val 18) 63) with (digit val 18).
    change (Z.land (Z.shiftr val 12) 63) with (digit val 12).
    change (Z.land (Z.shiftr val 6) 63) with (digit val 6).
    change (Z.land val 63) with (digit val 0).
    cbn [base64_decodeQuanta].
    rewrite encode_not_padding by lia.
    rewrite !decodeMap_digit by lia. cbn [mbind option_bind].
    rewrite IH. cbn [mbind option_bind].
    rewrite digits_quantum by lia.
    f_equal. f_equal; [| f_equal; [| f_equal]]; apply byte_of_Z_eq;
      rewrite Z.shiftr_div_pow2, Hval by lia.
    + change (2 ^ 16) with 65536. Z.div_mod_to_equations. lia.
    + change (2 ^ 8) with 256. Z.div_mod_to_equations. lia.
    + change (2 ^ 0) with 1. Z.div_mod_to_equations. lia.
Qed.
(** ** bytes *)

Lemma bytes_HasPrefix_app p s : bytes_HasPrefix (p ++ s) p = true.
Proof.
  induction p as [|c p IH]; [destruct s; reflexivity |].
  cbn [app bytes_HasPrefix]. rewrite bool_decide_eq_true_2 by reflexivity. exact IH.
Qed.

Lemma bytes_HasPrefix_head c s p ps :
  c <> p -> bytes_HasPrefix (c :: s) (p :: ps) = false.
Proof.
  intros Hne. cbn [bytes_HasPrefix]. rewrite bool_decide_eq_false_2 by exact Hne. reflexivity.
Qed.

Lemma bytes_IndexByte_app l c rest :
  c ∉ l -> bytes_IndexByte (l ++ c :: rest) c = Some (length l).
Proof.
  induction l as [|x l IH]; intros Hnin; cbn [app bytes_IndexByte length].
  - rewrite bool_decide_eq_true_2 by reflexivity. reflexivity.
  - apply not_elem_of_cons in Hnin as [Hne Hnin].
    rewrite bool_decide_eq_false_2 by congruence.
    rewrite IH by exact Hnin. reflexivity.
Qed.

Lemma bytes_Index_single_None s c : c ∉ s -> bytes_Index s [c] = None.
Proof.
  induction s as [|x s IH]; intros Hnin; [reflexivity |].
  apply not_elem_of_cons in Hnin as [Hne Hnin].
  cbn [bytes_Index bytes_HasPrefix].
  rewrite bool_decide_eq_false_2 by congruence. cbn [andb].
  rewrite IH by exact Hnin. reflexivity.
Qed.

Lemma bytes_TrimLeft_subseteq s cutset c : c ∈ bytes_TrimLeft s cutset -> c ∈ s.
Proof.
  induction s as [|x s IH]; cbn [bytes_TrimLeft]; [intros H; exact H |].
  destruct (bool_decide (x ∈ cutset)); intros Hin.
  - apply elem_of_cons. right. apply IH. exact Hin.
  - exact Hin.
Qed.

Lemma bytes_TrimRight_subseteq s cutset c : c ∈ bytes_TrimRight s cutset -> c ∈ s.
Proof.
  unfold bytes_TrimRight. rewrite elem_of_reverse. intros Hin.
  apply bytes_TrimLeft_subseteq in Hin. rewrite elem_of_reverse in Hin. exact Hin.
Qed.

Lemma bytes_TrimRight_id s cutset :
  (forall c, last s = Some c -> c ∉ cutset) -> bytes_TrimRight s cutset = s.
Proof.
  intros Hlast. unfold bytes_TrimRight.
  destruct (reverse s) as [|x r] eqn:Hrev.
  - cbn [bytes_TrimLeft]. rewrite <- Hrev. apply reverse_involutive.
  - assert (Hs : s = reverse r ++ [x]).
    { rewrite <- (reverse_involutive s), Hrev, reverse_cons. reflexivity. }
    cbn [bytes_TrimLeft]. rewrite bool_decide_eq_false_2.
    + rewrite <- Hrev. apply reverse_involutive.
    + apply Hlast. rewrite Hs. apply last_snoc.
Qed.

Lemma getLine_line l rest :
  Forall solid l -> getLine (l ++ nl ++ rest) = (l, rest).
Proof.
  intros Hl. unfold getLine, nl. cbn [app].
  rewrite bytes_IndexByte_app.
  2:{ intros Hin. rewrite Forall_forall in Hl. apply Hl in Hin. destruct Hin as [Hne _].
      congruence. }
  assert (Hcr : (0 <? length l)%nat
                && bool_decide ((l ++ x0a :: rest) !! (length l - 1)%nat = Some x0d) = false).
  { destruct (decide (l = [])) as [-> | Hne]; [reflexivity |].
    apply andb_false_intro2, bool_decide_eq_false_2.
    destruct (exists_last Hne) as [l' [c ->]].
    rewrite length_app. cbn [length].
    replace (length l' + 1 - 1)%nat with (length l') by lia.
    rewrite <- app_assoc. cbn [app].
    rewrite list_lookup_middle by reflexivity.
    apply Forall_app in Hl as [_ Hc]. inversion Hc as [|? ? [_ [Hcr _]] _]; subst.
    congruence. }
  rewrite Hcr.
  rewrite take_app_length.
  rewrite (cons_middle x0a l rest), app_assoc.
  rewrite drop_app_length' by (rewrite length_app; cbn [length]; lia).
  f_equal. apply bytes_TrimRight_id. intros c Hc.
  apply last_Some_elem_of in Hc. rewrite Forall_forall in Hl. apply Hl in Hc.
  destruct Hc as [_ [_ [Hsp Htab]]].
  rewrite !elem_of_cons, elem_of_nil. intuition congruence.
Qed.

Lemma getLine_fst_subseteq data c : c ∈ fst (getLine data) -> c ∈ data.
Proof.
  unfold getLine. destruct (bytes_IndexByte data x0a) as [i|]; cbn [fst]; intros Hin.
  - apply bytes_TrimRight_subseteq in Hin. eapply subseteq_take. exact Hin.
  - apply bytes_TrimRight_subseteq in Hin. exact Hin.
Qed.

(** ** pem *)

Lemma plain_armour c : plain c -> armour c.
Proof. unfold plain, armour. intuition. Qed.

Lemma nl_armour : armour x0a.
Proof. unfold armour. repeat split; discriminate. Qed.

Lemma pem_Decode_headers_none fuel rest h :
  rest <> [] -> ":"%byte ∉ rest -> pem_Decode_headers fuel rest h = Some (h, rest).
Proof.
  intros Hne Hcolon. destruct rest as [|x rest]; [congruence |].
  destruct fuel; cbn [pem_Decode_headers];
    destruct (getLine (x :: rest)) as [line next] eqn:Hline;
    assert (Hcut : bytes_Cut line colon = None)
      by (unfold bytes_Cut; change colon with [":"%byte];
          rewrite bytes_Index_single_None; [reflexivity |];
          intros Hin; apply Hcolon, getLine_fst_subseteq; rewrite Hline; exact Hin);
    rewrite Hcut; reflexivity.
Qed.


Lemma bytes_HasPrefix_second c d s p q ps :
  d <> q -> bytes_HasPrefix (c :: d :: s) (p :: q :: ps) = false.
Proof.
  intros Hne. cbn [bytes_HasPrefix].
  rewrite (bool_decide_eq_false_2 (d = q)) by exact Hne.
  cbn [andb]. apply andb_false_r.
Qed.

Lemma pemEnd_cons : pemEnd = x0a :: "-"%byte :: bytes_of "----END ".
Proof. reflexivity. Qed.

Lemma bytes_Index_pemEnd pre post :
  "-"%byte ∉ pre -> bytes_Index (pre ++ pemEnd ++ post) pemEnd = Some (length pre).
Proof.
  induction pre as [|c pre IH]; intros Hdash.
  - cbn [app length].
    assert (Hp : bytes_HasPrefix (pemEnd ++ post) pemEnd = true) by apply bytes_HasPrefix_app.
    unfold bytes_Index. destruct (pemEnd ++ post); rewrite Hp; reflexivity.
  - apply not_elem_of_cons in Hdash as [Hc Hdash].
    cbn [app length bytes_Index].
    assert (Hp : bytes_HasPrefix (c :: pre ++ pemEnd ++ post) pemEnd = false).
    { destruct pre as [|d pre]; cbn [app].
      - rewrite pemEnd_cons. cbn [app]. apply bytes_HasPrefix_second. discriminate.
      - apply not_elem_of_cons in Hdash as [Hd _].
        rewrite pemEnd_cons at 2. apply bytes_HasPrefix_second. congruence. }
    rewrite Hp, IH by exact Hdash. reflexivity.
Qed.

Lemma lineBreaker_body s : forall used,
  s <> [] ->
  exists body,
    lineBreaker used s = body ++ nl /\
    (forall c, c ∈ body -> c ∈ s \/ c = x0a) /\
    filter (fun c => c <> x0a /\ c <> x0d) body = filter (fun c => c <> x0a /\ c <> x0d) s.
Proof.
  induction s as [|c s IH]; intros used Hne; [congruence |].
  cbn [lineBreaker].
  destruct (decide (s = [])) as [-> | Hs].
  - exists [c]. destruct (S used =? pemLineLength)%nat; cbn [lineBreaker Nat.ltb Nat.leb app].
    + repeat split. intros d Hd. left. exact Hd.
    + repeat split. intros d Hd. left. exact Hd.
  - destruct (S used =? pemLineLength)%nat.
    + destruct (IH 0%nat Hs) as [body [Hb [Hin Hf]]].
      exists (c :: nl ++ body). rewrite Hb. split; [reflexivity |]. split.
      * intros d Hd. apply elem_of_cons in Hd as [-> | Hd]; [left; left |].
        unfold nl in Hd. cbn [app] in Hd.
        apply elem_of_cons in Hd as [-> | Hd]; [right; reflexivity |].
        destruct (Hin d Hd) as [H1 | H1]; [left; right; exact H1 | right; exact H1].
      * rewrite !filter_cons. unfold nl. cbn [app]. rewrite filter_cons_False.
        -- rewrite Hf. reflexivity.
        -- intros [Hx _]. congruence.
    + destruct (IH (S used) Hs) as [body [Hb [Hin Hf]]].
      exists (c :: body). rewrite Hb. split; [reflexivity |]. split.
      * intros d Hd. apply elem_of_cons in Hd as [-> | Hd]; [left; left |].
        destruct (Hin d Hd) as [H1 | H1]; [left; right; exact H1 | right; exact H1].
      * rewrite !filter_cons, Hf. reflexivity.
Qed.

Lemma certLine_solid : Forall solid certLine.
Proof. apply (bool_decide_unpack _). vm_compute. reflexivity. Qed.

Lemma removeSpacesAndTabs_armour body :
  Forall armour body -> removeSpacesAndTabs body = body.
Proof.
  intros Hall. unfold removeSpacesAndTabs.
  induction Hall as [|c body Hc Hall IH]; [reflexivity |].
  rewrite filter_cons_True, IH; [reflexivity |].
  destruct Hc as [_ [_ [Hsp [Htab _]]]]. split; assumption.
Qed.

(** A block of type CERTIFICATE without headers, its text spread over
    lines in any way, decodes to the bytes of the text. *)
Lemma pem_Decode_round_armour body raw :
  Forall armour body ->
  base64_Decode body = Some raw ->
  pem_Decode_round (tail pemStart ++ certLine ++ nl ++ body ++ pemEnd ++ certLine ++ nl)
  = pem_found {| Type_ := "CERTIFICATE"; Headers := ∅; Bytes := raw |} [].
Proof.
  intros Harm Hdec. unfold pem_Decode_round.
  rewrite bytes_HasPrefix_app.
  rewrite drop_app_length' by reflexivity.
  rewrite getLine_line by exact certLine_solid.
  cbv beta iota zeta.
  replace (bytes_HasSuffix certLine pemEndOfLine) with true by reflexivity.
  cbn [negb].
  replace (take (length certLine - length pemEndOfLine) certLine)
    with (bytes_of "CERTIFICATE") by reflexivity.
  assert (Hdash : "-"%byte ∉ body).
  { intros Hin. rewrite Forall_forall in Harm. apply Harm in Hin. destruct Hin as [Hd _].
    congruence. }
  assert (Hcolon : ":"%byte ∉ body ++ pemEnd ++ certLine ++ nl).
  { rewrite elem_of_app. intros [Hin | Hin].
    - rewrite Forall_forall in Harm. apply Harm in Hin. destruct Hin as [_ [Hc _]].
      congruence.
    - revert Hin. apply (bool_decide_unpack _). vm_compute. reflexivity. }
  rewrite pem_Decode_headers_none; [| destruct body; discriminate | exact Hcolon].
  cbv beta iota zeta.
  assert (Hpre : bytes_HasPrefix (body ++ pemEnd ++ certLine ++ nl) (tail pemEnd) = false).
  { destruct body as [|c body]; [reflexivity |].
    apply not_elem_of_cons in Hdash as [Hc _].
    cbn [app]. change (tail pemEnd) with ("-"%byte :: bytes_of "----END ").
    apply bytes_HasPrefix_head. congruence. }
  rewrite Hpre, andb_false_r.
  rewrite bytes_Index_pemEnd by exact Hdash.
  cbn [fmap option_fmap option_map].
  replace (drop (length body + length pemEnd) (body ++ pemEnd ++ certLine ++ nl))
    with (certLine ++ nl)
    by (rewrite (app_assoc body), drop_app_length' by (rewrite length_app; reflexivity);
        reflexivity).
  replace (drop (length body + length pemEnd - 1) (body ++ pemEnd ++ certLine ++ nl))
    with (drop (length pemEnd - 1) (pemEnd ++ certLine ++ nl))
    by (rewrite <- (drop_app_add body); f_equal; cbn; lia).
  rewrite take_app_length, removeSpacesAndTabs_armour, Hdec by exact Harm.
  reflexivity.
Qed.

Lemma filter_all {A} (P : A -> Prop) `{forall x, Decision (P x)} (l : list A) :
  Forall P l -> filter P l = l.
Proof.
  intros Hall. induction Hall as [|c l Hc Hall IH]; [reflexivity |].
  rewrite filter_cons_True by exact Hc. rewrite IH. reflexivity.
Qed.

Lemma base64_Encode_plain src : Forall plain (base64_Encode src).
Proof.
  assert (He : forall i, plain (base64_encode (Z.land i 63))).
  { intros i. apply base64_char_plain, base64_encode_char.
    rewrite land_63. apply Z.mod_pos_bound. lia. }
  induction src as [| a | a b | a b c rest IH] using list_ind3; cbn [base64_Encode].
  - constructor.
  - repeat constructor; try apply He; apply StdPadding_plain.
  - repeat constructor; try apply He; apply StdPadding_plain.
  - repeat (constructor; [apply He |]). exact IH.
Qed.

Lemma base64_Encode_nonempty src : src <> [] -> base64_Encode src <> [].
Proof. destruct src as [|a [|b [|c rest]]]; [congruence | discriminate ..]. Qed.

Lemma pem_EncodeToMemory_CERTIFICATE raw :
  pem_EncodeToMemory {| Type_ := "CERTIFICATE"; Headers := ∅; Bytes := raw |} =
  Some (tail pemStart ++ certLine ++ nl ++
        lineBreaker 0 (base64_Encode raw) ++ tail pemEnd ++ certLine ++ nl).
Proof.
  unfold pem_EncodeToMemory. cbn [Headers Type_ Bytes].
  rewrite map_to_list_empty. cbn [map existsb].
  unfold pem_headers. rewrite bool_decide_eq_true_2 by reflexivity.
  reflexivity.
Qed.

(** Decoding the PEM encoding of a CERTIFICATE block gives the block back
    and leaves no text over. *)
Lemma pem_Decode_EncodeToMemory raw :
  exists pemBytes,
    pem_EncodeToMemory {| Type_ := "CERTIFICATE"; Headers := ∅; Bytes := raw |}
      = Some pemBytes /\
    pem_Decode pemBytes
      = (Some {| Type_ := "CERTIFICATE"; Headers := ∅; Bytes := raw |}, []).
Proof.
  eexists. split; [apply pem_EncodeToMemory_CERTIFICATE |].
  destruct (decide (raw = [])) as [-> | Hraw]; [vm_compute; reflexivity |].
  destruct (lineBreaker_body (base64_Encode raw) 0%nat (base64_Encode_nonempty raw Hraw))
    as [body [Hbody [Hin Hfilter]]].
  pose proof (base64_Encode_plain raw) as Hplain. rewrite Forall_forall in Hplain.
  assert (Harm : Forall armour body).
  { apply Forall_forall. intros c Hc. destruct (Hin c Hc) as [Hs | ->].
    - apply plain_armour, Hplain, Hs.
    - apply nl_armour. }
  assert (Hdec : base64_Decode body = Some raw).
  { unfold base64_Decode. rewrite Hfilter, filter_all.
    - apply base64_decodeQuanta_Encode.
    - apply Forall_forall. intros c Hc. apply Hplain in Hc.
      destruct Hc as [Hnl [Hcr _]]. split; assumption. }
  rewrite Hbody. unfold pem_Decode.
  replace (tail pemStart ++ certLine ++ nl ++ (body ++ nl) ++ tail pemEnd ++ certLine ++ nl)
    with (tail pemStart ++ certLine ++ nl ++ body ++ pemEnd ++ certLine ++ nl)
    by (rewrite <- (app_assoc body); reflexivity).
  match goal with |- pem_Decode_loop ?n _ _ = _ => destruct n end;
    cbn [pem_Decode_loop]; rewrite (pem_Decode_round_armour body raw Harm Hdec);
    reflexivity.
Qed.

(** *** The fuel of [pem.Decode] is enough *)

Lemma getLine_rest_length data :
  data <> [] -> (length (snd (getLine data)) < length data)%nat.
Proof.
  intros Hne. unfold getLine.
  destruct (bytes_IndexByte data x0a) as [i|]; cbn [snd].
  - rewrite length_drop. destruct data; [congruence | cbn [length]; lia].
  - destruct data; [congruence | cbn [length]; lia].
Qed.

Lemma getLine_rest_length_le data :
  (length (snd (getLine data)) <= length data)%nat.
Proof.
  destruct data as [|c data]; [reflexivity |].
  apply Nat.lt_le_incl, getLine_rest_length. discriminate.
Qed.

Lemma pem_Decode_headers_fuel fuel : forall rest h,
  (length rest <= fuel)%nat ->
  pem_Decode_headers fuel rest h = pem_Decode_headers (length rest) rest h.
Proof.
  induction fuel as [fuel IH] using lt_wf_ind. intros rest h Hlen.
  destruct rest as [|c rest]; [destruct fuel; reflexivity |].
  pose proof (getLine_rest_length (c :: rest)) as Hnext.
  destruct fuel as [|fuel]; [cbn [length] in Hlen; lia |].
  cbn [length pem_Decode_headers].
  destruct (getLine (c :: rest)) as [line next]. cbn [snd] in Hnext.
  destruct (bytes_Cut line colon) as [[key val]|]; [| reflexivity].
  specialize (Hnext ltac:(discriminate)). cbn [length] in Hnext, Hlen.
  rewrite (IH fuel) by lia. rewrite (IH (length rest)) by lia. reflexivity.
Qed.

Lemma pem_Decode_headers_length fuel : forall rest h h' rest',
  pem_Decode_headers fuel rest h = Some (h', rest') ->
  (length rest' <= length rest)%nat.
Proof.
  induction fuel as [|fuel IH]; intros rest h h' rest'; destruct rest as [|c rest];
    cbn [pem_Decode_headers]; try discriminate.
  - destruct (getLine (c :: rest)) as [line next].
    destruct (bytes_Cut line colon) as [[key val]|]; [discriminate |].
    intros [= _ <-]. reflexivity.
  - pose proof (getLine_rest_length_le (c :: rest)) as Hnext.
    destruct (getLine (c :: rest)) as [line next]. cbn [snd] in Hnext.
    destruct (bytes_Cut line colon) as [[key val]|].
    + intros Hrec. apply IH in Hrec. lia.
    + intros [= _ <-]. reflexivity.
Qed.

Lemma bytes_HasPrefix_nonempty s p ps : bytes_HasPrefix s (p :: ps) = true -> s <> [].
Proof. destruct s; [discriminate | discriminate]. Qed.

Lemma bytes_Index_nonempty s p ps i : bytes_Index s (p :: ps) = Some i -> s <> [].
Proof. destruct s; [discriminate | discriminate]. Qed.

(** A round that asks for another begins it with less text. *)
Lemma pem_Decode_round_continue rest rest' :
  pem_Decode_round rest = pem_continue rest' -> (length rest' < length rest)%nat.
Proof.
  unfold pem_Decode_round.
  set (start := if bytes_HasPrefix rest (tail pemStart)
                then Some (drop (length pemStart - 1) rest)
                else snd <$> bytes_Cut rest pemStart).
  assert (Hstart : forall r, start = Some r -> (length r < length rest)%nat).
  { intros r. unfold start.
    destruct (bytes_HasPrefix rest (tail pemStart)) eqn:Hp.
    - apply bytes_HasPrefix_nonempty in Hp. intros [= <-].
      rewrite length_drop. destruct rest; [congruence | cbn; lia].
    - unfold bytes_Cut. destruct (bytes_Index rest pemStart) as [i|] eqn:Hi; [| discriminate].
      apply bytes_Index_nonempty in Hi. cbn [fmap option_fmap option_map snd].
      intros [= <-]. rewrite length_drop. destruct rest; [congruence | cbn; lia]. }
  destruct start as [r|]; [| discriminate].
  specialize (Hstart r eq_refl).
  pose proof (getLine_rest_length_le r) as Hline.
  destruct (getLine r) as [typeLine r1]. cbn [snd] in Hline.
  destruct (negb (bytes_HasSuffix typeLine pemEndOfLine)); [intros [= <-]; lia |].
  destruct (pem_Decode_headers (length r1) r1 ∅) as [[headers r2]|] eqn:Hh; [| discriminate].
  apply pem_Decode_headers_length in Hh.
  assert (Hr2 : (length r2 < length rest)%nat) by lia.
  repeat match goal with
         | |- context [match ?x with _ => _ end] =>
             match type of x with
             | option _ => destruct x as [[? ?]|] || destruct x
             | bool => destruct x
             | _ => fail
             end
         end; try discriminate; intros [= <-]; exact Hr2.
Qed.

Lemma pem_Decode_loop_fuel fuel : forall data rest,
  (length rest <= fuel)%nat ->
  pem_Decode_loop fuel data rest = pem_Decode_loop (length rest) data rest.
Proof.
  induction fuel as [fuel IH] using lt_wf_ind. intros data rest Hlen.
  destruct (pem_Decode_round rest) as [p r | | r] eqn:Hround.
  - destruct fuel, (length rest); cbn [pem_Decode_loop]; rewrite Hround; reflexivity.
  - destruct fuel, (length rest); cbn [pem_Decode_loop]; rewrite Hround; reflexivity.
  - pose proof (pem_Decode_round_continue _ _ Hround) as Hlt.
    destruct fuel as [|fuel]; [lia |].
    destruct (length rest) as [|n] eqn:Hn; [lia |].
    cbn [pem_Decode_loop]. rewrite Hround.
    rewrite (IH fuel) by lia. rewrite (IH n) by lia. reflexivity.
Qed.

(** More fuel changes nothing: [pem.Decode] never stops for lack of it. *)
Lemma pem_Decode_fuel fuel data :
  (length data <= fuel)%nat -> pem_Decode_loop fuel data data = pem_Decode data.
Proof. intros Hlen. unfold pem_Decode. apply pem_Decode_loop_fuel. exact Hlen. Qed.
(** ** The credential loaders and the trust extractor *)

Section PackageProperties.
Context `{Libraries}.

Lemma calls_app w w' evs : trace w' = trace w ++ evs -> calls w w' = evs.
Proof. intros Ht. unfold calls. rewrite Ht. apply drop_app_length. Qed.

Lemma ioutil_ReadFile_run filename w :
  ioutil_ReadFile filename w =
  (Returns match read_result w (now w) filename with
           | inl e => ([], Some e)
           | inr data => (data, None)
           end, record (EvReadFile filename) w).
Proof. unfold ioutil_ReadFile. destruct (read_result w (now w) filename); reflexivity. Qed.

Lemma now_record ev w : now (record ev w) = S (now w).
Proof. unfold now, record. cbn [trace]. rewrite length_app. cbn [length]. lia. Qed.

Lemma read_result_record ev w t filename :
  read_result (record ev w) t filename = read_result w t filename.
Proof. reflexivity. Qed.

(** *** getCACert *)

Lemma getCACert_range_first pre cert post :
  Forall (fun c => IsCA c = false) pre -> IsCA cert = true ->
  getCACert_range (pre ++ cert :: post) = Some cert.
Proof.
  intros Hpre Hca. induction Hpre as [|c pre Hc Hpre IH]; cbn [app getCACert_range].
  - rewrite Hca. reflexivity.
  - rewrite Hc. exact IH.
Qed.

(** The loop is [find] on the CA flag. *)
Lemma getCACert_range_find certs : getCACert_range certs = List.find IsCA certs.
Proof.
  induction certs as [|c certs IH]; cbn [getCACert_range List.find]; [reflexivity |].
  rewrite IH. reflexivity.
Qed.

Lemma getCACert_range_none certs :
  Forall (fun c => IsCA c = false) certs -> getCACert_range certs = None.
Proof.
  intros Hall. induction Hall as [|c certs Hc Hall IH]; cbn [getCACert_range].
  - reflexivity.
  - rewrite Hc. exact IH.
Qed.

Lemma getCACert_range_Some certs cert :
  getCACert_range certs = Some cert ->
  exists pre post, certs = pre ++ cert :: post /\
    Forall (fun c => IsCA c = false) pre /\ IsCA cert = true.
Proof.
  induction certs as [|c certs IH]; cbn [getCACert_range]; [discriminate |].
  destruct (IsCA c) eqn:Hc.
  - intros [= ->]. exists [], certs. repeat split; [constructor | exact Hc].
  - intros Hr. destruct (IH Hr) as [pre [post [-> [Hpre Hca]]]].
    exists (c :: pre), post. repeat split; [constructor; assumption | exact Hca].
Qed.

Lemma getCACert_range_None certs :
  getCACert_range certs = None -> Forall (fun c => IsCA c = false) certs.
Proof.
  induction certs as [|c certs IH]; cbn [getCACert_range]; [constructor |].
  destruct (IsCA c) eqn:Hc; [discriminate |].
  intros Hr. constructor; [exact Hc | exact (IH Hr)].
Qed.

(** What a run of [getCACert] does, by the outcome of the handshake. *)
Lemma getCACert_run domain w :
  getCACert domain w =
  match getCACert_handshake w domain with
  | inl e =>
    (Returns (None, Some e), record (EvDial "tcp" (domain +:+ ":443") getCACert_conf) w)
  | inr chain =>
    (Returns match getCACert_range chain with
             | Some cert => (Some cert, None)
             | None => (None, Some errNoCA)
             end,
     record (EvClose (domain +:+ ":443"))
            (record (EvDial "tcp" (domain +:+ ":443") getCACert_conf) w))
  end.
Proof.
  unfold getCACert, getCACert_handshake, bind, tls_Dial, fmt_Sprintf_s_443.
  fold getCACert_conf.
  destruct (handshake w (now w) "tcp" (domain +:+ ":443") getCACert_conf) as [e | chain].
  - reflexivity.
  - unfold defer, tls_Conn_Close, tls_Conn_ConnectionState.
    cbn [conn_state conn_addr PeerCertificates].
    destruct (getCACert_range chain); reflexivity.
Qed.

(** C1: when the handshake succeeds, [getCACert] returns the first
    certificate of the presented chain, in the order presented, whose CA
    flag is set; when no certificate of the chain has the flag it returns
    no certificate and the error "unable to get CA from server"; when the
    dial fails it returns no certificate and the error of the dial. *)
Theorem getCACert_first_CA (domain : string) (w : World) :
  (forall chain pre cert post,
     getCACert_handshake w domain = inr chain ->
     chain = pre ++ cert :: post ->
     Forall (fun c => IsCA c = false) pre -> IsCA cert = true ->
     fst (getCACert domain w) = Returns (Some cert, None)) /\
  (forall chain,
     getCACert_handshake w domain = inr chain ->
     Forall (fun c => IsCA c = false) chain ->
     fst (getCACert domain w) = Returns (None, Some errNoCA)) /\
  (forall e,
     getCACert_handshake w domain = inl e ->
     fst (getCACert domain w) = Returns (None, Some e)).
Proof.
  rewrite getCACert_run. repeat split.
  - intros chain pre cert post Hh -> Hpre Hca. rewrite Hh. cbn [fst].
    rewrite getCACert_range_first by assumption. reflexivity.
  - intros chain Hh Hall. rewrite Hh. cbn [fst].
    rewrite getCACert_range_none by assumption. reflexivity.
  - intros e Hh. rewrite Hh. reflexivity.
Qed.

(** *** LoadTLSKeypair *)

Lemma read_result_inl w t filename :
  missing w filename \/ unreadable w t filename ->
  exists e, read_result w t filename = inl e.
Proof.
  unfold missing, unreadable, read_result. intros [Hm | [e He]].
  - destruct (read_fault w t filename) as [e|]; [exists e; reflexivity |].
    rewrite Hm. eexists. reflexivity.
  - rewrite He. exists e. reflexivity.
Qed.

Lemma read_result_inl_inv w t filename e :
  read_result w t filename = inl e ->
  missing w filename \/ unreadable w t filename.
Proof.
  unfold missing, unreadable, read_result.
  destruct (read_fault w t filename) as [e'|]; [intros _; right; eexists; reflexivity |].
  destruct (files w !! filename); [discriminate | intros _; left; reflexivity].
Qed.

(** What a run of [LoadTLSKeypair] does, by the outcome of the two reads
    and of the parse. *)
Lemma LoadTLSKeypair_run certPath keyPath w :
  LoadTLSKeypair certPath keyPath w =
  match read_result w (now w) certPath with
  | inl e => (Returns (None, Some e), record (EvReadFile certPath) w)
  | inr certPEM =>
    let w2 := record (EvReadFile keyPath) (record (EvReadFile certPath) w) in
    match read_result w (S (now w)) keyPath with
    | inl e => (Returns (None, Some e), w2)
    | inr keyPEM =>
      match tls_X509KeyPair certPEM keyPEM with
      | inl e => (Returns (None, Some e), w2)
      | inr cert => (Returns (Some (credentials_NewTLS (server_config cert)), None), w2)
      end
    end
  end.
Proof.
  unfold LoadTLSKeypair, tls_LoadX509KeyPair, bind.
  rewrite ioutil_ReadFile_run.
  destruct (read_result w (now w) certPath) as [e | certPEM]; [reflexivity |].
  rewrite ioutil_ReadFile_run, now_record, read_result_record.
  destruct (read_result w (S (now w)) keyPath) as [e | keyPEM]; [reflexivity |].
  destruct (tls_X509KeyPair certPEM keyPEM) as [e | cert]; reflexivity.
Qed.

(** C2: when the certificate file or the key file is missing or unreadable,
    or the pair is malformed or does not match (so that [tls.X509KeyPair]
    rejects it), [LoadTLSKeypair] returns an error and no credentials. *)
Theorem LoadTLSKeypair_rejects (certPath keyPath : string) (w : World) :
  missing w certPath \/ unreadable w (now w) certPath \/
  missing w keyPath \/ unreadable w (S (now w)) keyPath \/
  (exists certPEM keyPEM e,
     read_result w (now w) certPath = inr certPEM /\
     read_result w (S (now w)) keyPath = inr keyPEM /\
     tls_X509KeyPair certPEM keyPEM = inl e) ->
  exists e w', LoadTLSKeypair certPath keyPath w = (Returns (None, Some e), w').
Proof.
  intros Hbad. rewrite LoadTLSKeypair_run.
  destruct (read_result w (now w) certPath) as [e | certPEM] eqn:Hcert;
    [eexists _, _; reflexivity |].
  cbv zeta.
  destruct (read_result w (S (now w)) keyPath) as [e | keyPEM] eqn:Hkey;
    [eexists _, _; reflexivity |].
  destruct (tls_X509KeyPair certPEM keyPEM) as [e | cert] eqn:Hpair;
    [eexists _, _; reflexivity |].
  exfalso.
  destruct Hbad as [Hm | [Hu | [Hm | [Hu | [c [k [e [Hc [Hk He]]]]]]]]].
  - destruct (read_result_inl w (now w) certPath (or_introl Hm)) as [e He]. congruence.
  - destruct (read_result_inl w (now w) certPath (or_intror Hu)) as [e He]. congruence.
  - destruct (read_result_inl w (S (now w)) keyPath (or_introl Hm)) as [e He]. congruence.
  - destruct (read_result_inl w (S (now w)) keyPath (or_intror Hu)) as [e He]. congruence.
  - congruence.
Qed.

(** C4: for a certificate and key that load, the credentials of
    [LoadTLSKeypair] hold exactly the one parsed certificate, no other
    source of certificates, and client authentication switched off. *)
Theorem LoadTLSKeypair_valid (certPath keyPath : string) (w : World)
    (certPEM keyPEM : bytes) (cert : tls_Certificate) :
  read_result w (now w) certPath = inr certPEM ->
  read_result w (S (now w)) keyPath = inr keyPEM ->
  tls_X509KeyPair certPEM keyPEM = inr cert ->
  exists creds w',
    LoadTLSKeypair certPath keyPath w = (Returns (Some creds, None), w') /\
    Certificates (creds_config creds) = [cert] /\
    GetCertificate (creds_config creds) = None /\
    ClientAuth (creds_config creds) = NoClientCert.
Proof.
  intros Hcert Hkey Hpair. rewrite LoadTLSKeypair_run, Hcert. cbv zeta.
  rewrite Hkey, Hpair. eexists _, _. split; [reflexivity |].
  repeat split.
Qed.


(** *** ClientLoadCA *)

Lemma x509_CertPool_contains_true s cert :
  x509_CertPool_contains s cert = true <-> exists c, c ∈ s /\ Raw c = Raw cert.
Proof.
  unfold x509_CertPool_contains. rewrite existsb_exists. split.
  - intros [c [Hin Hraw]]. exists c. split; [apply list_elem_of_In; exact Hin |].
    apply bool_decide_eq_true in Hraw. exact Hraw.
  - intros [c [Hin Hraw]]. exists c. split; [apply list_elem_of_In; exact Hin |].
    apply bool_decide_eq_true. exact Hraw.
Qed.

Lemma AddCert_keeps s cert c : c ∈ s -> c ∈ x509_CertPool_AddCert s cert.
Proof.
  intros Hin. unfold x509_CertPool_AddCert.
  destruct (x509_CertPool_contains s cert); [exact Hin |].
  apply elem_of_app. left. exact Hin.
Qed.

Lemma AddCert_has s cert : exists c, c ∈ x509_CertPool_AddCert s cert /\ Raw c = Raw cert.
Proof.
  unfold x509_CertPool_AddCert.
  destruct (x509_CertPool_contains s cert) eqn:Hc.
  - apply x509_CertPool_contains_true. exact Hc.
  - exists cert. split; [| reflexivity]. apply elem_of_app. right. apply list_elem_of_singleton.
    reflexivity.
Qed.

Lemma AddCert_from s cert c : c ∈ x509_CertPool_AddCert s cert -> c ∈ s \/ c = cert.
Proof.
  unfold x509_CertPool_AddCert.
  destruct (x509_CertPool_contains s cert); [intros Hin; left; exact Hin |].
  rewrite elem_of_app, list_elem_of_singleton. intros Hin; exact Hin.
Qed.

Lemma AddCert_fold_keeps certs : forall s c,
  c ∈ s -> c ∈ fold_left x509_CertPool_AddCert certs s.
Proof.
  induction certs as [|cert certs IH]; intros s c Hin; cbn [fold_left]; [exact Hin |].
  apply IH, AddCert_keeps, Hin.
Qed.

Lemma AddCert_fold_has certs : forall s c,
  c ∈ certs -> exists c', c' ∈ fold_left x509_CertPool_AddCert certs s /\ Raw c' = Raw c.
Proof.
  induction certs as [|cert certs IH]; intros s c Hin; [inversion Hin |].
  cbn [fold_left]. apply elem_of_cons in Hin as [-> | Hin].
  - destruct (AddCert_has s cert) as [c' [Hc' Hraw]].
    exists c'. split; [apply AddCert_fold_keeps; exact Hc' | exact Hraw].
  - apply IH. exact Hin.
Qed.

Lemma AddCert_fold_from certs : forall s c,
  c ∈ fold_left x509_CertPool_AddCert certs s -> c ∈ s \/ c ∈ certs.
Proof.
  induction certs as [|cert certs IH]; intros s c Hin; cbn [fold_left] in Hin;
    [left; exact Hin |].
  destruct (IH _ _ Hin) as [Hs | Hc].
  - destruct (AddCert_from _ _ _ Hs) as [Hs' | ->]; [left; exact Hs' | right; left].
  - right. right. exact Hc.
Qed.

Lemma AppendCertsFromPEM_run s pemCerts :
  x509_CertPool_AppendCertsFromPEM s pemCerts =
  (fold_left x509_CertPool_AddCert (x509_certificatesOfPEM pemCerts) s,
   bool_decide (x509_certificatesOfPEM pemCerts <> [])).
Proof.
  unfold x509_CertPool_AppendCertsFromPEM.
  assert (Hgen : forall certs s ok,
    fold_left (fun '(s, ok) cert => (x509_CertPool_AddCert s cert, true)) certs (s, ok) =
    (fold_left x509_CertPool_AddCert certs s, ok || bool_decide (certs <> []))).
  { induction certs as [|cert certs IH]; intros s0 ok; cbn [fold_left].
    - rewrite bool_decide_eq_false_2 by congruence. rewrite orb_false_r. reflexivity.
    - rewrite IH. rewrite (bool_decide_eq_true_2 (cert :: certs <> [])) by discriminate.
      rewrite orb_true_r. reflexivity. }
  rewrite Hgen. reflexivity.
Qed.

(** Appending to a fresh pool leaves it empty exactly when no certificate
    was found, which is when [AppendCertsFromPEM] answers [false]. *)
Lemma AppendCertsFromPEM_fresh pemCerts :
  fst (x509_CertPool_AppendCertsFromPEM x509_NewCertPool pemCerts) = [] <->
  snd (x509_CertPool_AppendCertsFromPEM x509_NewCertPool pemCerts) = false.
Proof.
  rewrite AppendCertsFromPEM_run. cbn [fst snd].
  destruct (x509_certificatesOfPEM pemCerts) as [|cert certs] eqn:Hcerts.
  - cbn [fold_left]. rewrite bool_decide_eq_false_2 by congruence. split; reflexivity.
  - rewrite bool_decide_eq_true_2 by discriminate. split; [| discriminate].
    intros Hnil. exfalso.
    destruct (AddCert_fold_has (cert :: certs) x509_NewCertPool cert) as [c' [Hin _]];
      [left |].
    rewrite Hnil in Hin. inversion Hin.
Qed.

Lemma ClientLoadCA_run cacertPath w :
  ClientLoadCA cacertPath w =
  (Returns match read_result w (now w) cacertPath with
           | inl e => (None, Some e)
           | inr pemServerCA =>
             let '(certPool, ok) :=
               x509_CertPool_AppendCertsFromPEM x509_NewCertPool pemServerCA in
             if ok then (Some (credentials_NewTLS (client_config certPool)), None)
             else (None, Some errNoServerCA)
           end, record (EvReadFile cacertPath) w).
Proof.
  unfold ClientLoadCA, bind. rewrite ioutil_ReadFile_run.
  destruct (read_result w (now w) cacertPath) as [e | pemServerCA]; [reflexivity |].
  destruct (x509_CertPool_AppendCertsFromPEM x509_NewCertPool pemServerCA) as [pool [|]];
    reflexivity.
Qed.

(** C5: [ClientLoadCA] returns an error exactly when the file cannot be
    read or appending its contents to a fresh pool leaves the pool empty;
    with an error it returns no credentials; without one it returns
    credentials for a client (no certificate of its own) whose root pool is
    the fresh pool after the append, which holds every certificate found in
    the file. *)
Theorem ClientLoadCA_spec (cacertPath : string) (w : World) :
  exists res w',
    ClientLoadCA cacertPath w = (Returns res, w') /\
    (is_Some (snd res) <->
       (missing w cacertPath \/ unreadable w (now w) cacertPath) \/
       (exists pemServerCA,
          read_result w (now w) cacertPath = inr pemServerCA /\
          fst (x509_CertPool_AppendCertsFromPEM x509_NewCertPool pemServerCA) = [])) /\
    (is_Some (snd res) -> fst res = None) /\
    (snd res = None ->
       exists creds pemServerCA,
         fst res = Some creds /\
         read_result w (now w) cacertPath = inr pemServerCA /\
         RootCAs (creds_config creds) =
           Some (fst (x509_CertPool_AppendCertsFromPEM x509_NewCertPool pemServerCA)) /\
         Certificates (creds_config creds) = [] /\
         (forall c, c ∈ x509_certificatesOfPEM pemServerCA ->
            exists c', c' ∈ default [] (RootCAs (creds_config creds)) /\ Raw c' = Raw c)).
Proof.
  rewrite ClientLoadCA_run. eexists _, _. split; [reflexivity |].
  destruct (read_result w (now w) cacertPath) as [e | pem] eqn:Hread.
  - cbn [fst snd]. split; [split |]; [| | split].
    + intros _. left. eapply read_result_inl_inv. exact Hread.
    + intros _. eexists. reflexivity.
    + reflexivity.
    + discriminate.
  - pose proof (AppendCertsFromPEM_fresh pem) as Hfresh.
    destruct (x509_CertPool_AppendCertsFromPEM x509_NewCertPool pem) as [pool ok] eqn:Happ.
    cbn [fst snd] in Hfresh. destruct ok; cbn [fst snd]; (split; [split |]; [| | split]).
    + intros [e He]. discriminate.
    + intros [Hbad | [pem' [Hpem' Hnil]]].
      * destruct (read_result_inl w (now w) cacertPath Hbad) as [e He]. congruence.
      * assert (pem' = pem) as -> by congruence.
        rewrite Happ in Hnil. cbn [fst] in Hnil.
        apply Hfresh in Hnil. discriminate.
    + intros [e He]. discriminate.
    + intros _. exists (credentials_NewTLS (client_config pool)), pem.
      split; [reflexivity |]. split; [reflexivity |].
      split; [rewrite Happ; reflexivity |]. split; [reflexivity |].
      intros c Hc. cbn [credentials_NewTLS creds_config client_config RootCAs default].
      rewrite AppendCertsFromPEM_run in Happ. injection Happ as <- _.
      apply AddCert_fold_has. exact Hc.
    + intros _. right. exists pem. split; [reflexivity |].
      rewrite Happ. apply Hfresh. reflexivity.
    + intros _. eexists. reflexivity.
    + reflexivity.
    + discriminate.
Qed.


(** *** DownloadCACert *)

(** [getCACert] leaves the files alone and makes one or two calls. *)
Lemma getCACert_world domain w res w1 :
  getCACert domain w = (Returns res, w1) ->
  files w1 = files w /\
  (trace w1 = trace w ++ [dial_event domain] \/
   trace w1 = trace w ++ [dial_event domain; close_event domain]).
Proof.
  rewrite getCACert_run.
  destruct (getCACert_handshake w domain) as [e | chain]; intros [= _ <-].
  - split; [reflexivity | left; reflexivity].
  - split; [reflexivity | right]. cbn [record trace]. rewrite <- app_assoc. reflexivity.
Qed.

Lemma DownloadCACert_write outputPath domain w cert w1 :
  getCACert domain w = (Returns (Some cert, None), w1) ->
  DownloadCACert outputPath domain w =
  ioutil_WriteFile outputPath
    (slice_of (pem_EncodeToMemory (CERTIFICATE_block (Raw cert)))) perm_0644 w1.
Proof.
  intros Hget. unfold DownloadCACert, bind. rewrite Hget. reflexivity.
Qed.

(** C3: for an extracted certificate, [DownloadCACert] writes the PEM
    encoding of a CERTIFICATE block of its raw bytes to [outputPath], in
    place of whatever the file held, and decoding what was written gives
    the raw bytes back; when the write fails it returns the error of the
    write; when the extraction fails it returns that error, writes nothing
    and does not call the file system. *)
Theorem DownloadCACert_persists (outputPath domain : string) (w : World) :
  (forall cert w1,
     getCACert domain w = (Returns (Some cert, None), w1) ->
     exists pemBytes,
       pem_EncodeToMemory (CERTIFICATE_block (Raw cert)) = Some pemBytes /\
       pem_Decode pemBytes = (Some (CERTIFICATE_block (Raw cert)), []) /\
       (create_fault w1 (now w1) outputPath = None ->
        write_fault w1 (now w1) outputPath = None ->
        exists w',
          DownloadCACert outputPath domain w = (Returns None, w') /\
          files w' = <[outputPath := pemBytes]> (files w) /\
          files w' !! outputPath = Some pemBytes) /\
       (forall e,
          create_fault w1 (now w1) outputPath = Some e \/
          (create_fault w1 (now w1) outputPath = None /\
           exists n, write_fault w1 (now w1) outputPath = Some (n, e)) ->
          exists w', DownloadCACert outputPath domain w = (Returns (Some e), w'))) /\
  (forall e w1,
     getCACert domain w = (Returns (None, Some e), w1) ->
     DownloadCACert outputPath domain w = (Returns (Some e), w1) /\
     files w1 = files w /\
     forall filename data perm, EvWriteFile filename data perm ∉ calls w w1).
Proof.
  split.
  - intros cert w1 Hget.
    destruct (pem_Decode_EncodeToMemory (Raw cert)) as [pemBytes [Henc Hdec]].
    exists pemBytes. split; [exact Henc |]. split; [exact Hdec |].
    rewrite (DownloadCACert_write _ _ _ _ _ Hget).
    unfold CERTIFICATE_block. rewrite Henc. cbn [slice_of default].
    destruct (getCACert_world _ _ _ _ Hget) as [Hfiles _].
    unfold ioutil_WriteFile. split.
    + intros Hc Hw. rewrite Hc, Hw. eexists. split; [reflexivity |].
      cbn [with_files files]. rewrite Hfiles. split; [reflexivity |].
      apply lookup_insert_eq.
    + intros e [Hc | [Hc [n Hw]]].
      * rewrite Hc. eexists. reflexivity.
      * rewrite Hc, Hw. eexists. reflexivity.
  - intros e w1 Hget. split; [| split].
    + unfold DownloadCACert, bind. rewrite Hget. reflexivity.
    + apply (getCACert_world _ _ _ _ Hget).
    + intros filename data perm Hin.
      destruct (getCACert_world _ _ _ _ Hget) as [_ [Ht | Ht]];
        rewrite (calls_app _ _ _ Ht) in Hin;
        repeat (apply elem_of_cons in Hin as [Hin | Hin]; [discriminate |]);
        inversion Hin.
Qed.


(** *** GenerateTLSConfig *)

Lemma GenerateTLSConfig_run staging email domains w :
  GenerateTLSConfig staging email domains w =
  (Returns match issuance w (now w) (managed_config staging email) domains with
           | Some e => (None, Some e)
           | None => (Some (certmagic_Config_TLSConfig (managed_config staging email)), None)
           end,
   record (EvManageSync (managed_config staging email) domains) w).
Proof.
  unfold GenerateTLSConfig, bind, certmagic_NewCache, certmagic_Config_ManageSync.
  cbn [GetConfigForCert ret Email Agreed].
  destruct staging;
    match goal with
    | |- context [issuance w (now w) ?m domains] =>
        change m with (managed_config true email) || change m with (managed_config false email)
    end;
    destruct (issuance w (now w) _ domains); reflexivity.
Qed.

(** C6: [GenerateTLSConfig] makes one call to the issuance, [ManageSync],
    for exactly the given domains, on a configuration whose issuer is the
    ACME manager built from the staging endpoint when [staging] is set and
    from the production endpoint otherwise, with the given contact email;
    the two endpoints differ. *)
Theorem GenerateTLSConfig_issuer (staging : bool) (email : string)
    (domains : list string) (w : World) :
  exists magic res w',
    GenerateTLSConfig staging email domains w = (Returns res, w') /\
    calls w w' = [EvManageSync magic domains] /\
    Issuer magic =
      Some (certmagic_NewACMEManager certmagic_Default (acme_template staging email)) /\
    Email (acme_template staging email) = email /\
    CA (acme_template staging email) =
      (if staging then LetsEncryptStagingCA else LetsEncryptProductionCA) /\
    LetsEncryptStagingCA <> LetsEncryptProductionCA.
Proof.
  rewrite GenerateTLSConfig_run.
  exists (managed_config staging email). eexists _, _.
  split; [reflexivity |].
  split; [apply calls_app; reflexivity |].
  split; [reflexivity |]. split; [reflexivity |]. split; [reflexivity |].
  discriminate.
Qed.


(** *** No retries *)

Lemma calls_record1 w ev : calls w (record ev w) = [ev].
Proof. apply calls_app. reflexivity. Qed.

Lemma calls_record2 w ev1 ev2 : calls w (record ev2 (record ev1 w)) = [ev1; ev2].
Proof. apply calls_app. cbn [record trace]. rewrite <- app_assoc. reflexivity. Qed.

(** [getCACert] returns a certificate or an error, never both. *)
Lemma getCACert_result domain w cert err w1 :
  getCACert domain w = (Returns (cert, err), w1) ->
  (cert = None /\ is_Some err) \/ (is_Some cert /\ err = None).
Proof.
  rewrite getCACert_run.
  destruct (getCACert_handshake w domain) as [e | chain].
  - intros [= <- <- _]. left. split; [reflexivity | eexists; reflexivity].
  - destruct (getCACert_range chain) as [c|]; intros [= <- <- _].
    + right. split; [eexists; reflexivity | reflexivity].
    + left. split; [reflexivity | eexists; reflexivity].
Qed.

(** C7: the loaders and the extractor make each attempt once. When
    [LoadTLSKeypair], [ClientLoadCA], [getCACert] or [DownloadCACert]
    returns an error, the calls it made are the single read, dial or write
    that failed and the calls that succeeded before it, each made once and
    none after the failure, and the error is the one that call reported (for
    a bundle without certificates and a chain without a CA, which fail
    without an error value, the package's own error). *)
Theorem loaders_do_not_retry (w : World) :
  (forall certPath keyPath res e w',
     LoadTLSKeypair certPath keyPath w = (Returns (res, Some e), w') ->
     res = None /\
     ((read_result w (now w) certPath = inl e /\
       calls w w' = [EvReadFile certPath]) \/
      (exists certPEM,
         read_result w (now w) certPath = inr certPEM /\
         calls w w' = [EvReadFile certPath; EvReadFile keyPath] /\
         (read_result w (S (now w)) keyPath = inl e \/
          exists keyPEM,
            read_result w (S (now w)) keyPath = inr keyPEM /\
            tls_X509KeyPair certPEM keyPEM = inl e)))) /\
  (forall cacertPath res e w',
     ClientLoadCA cacertPath w = (Returns (res, Some e), w') ->
     res = None /\
     calls w w' = [EvReadFile cacertPath] /\
     (read_result w (now w) cacertPath = inl e \/
      exists pemServerCA,
        read_result w (now w) cacertPath = inr pemServerCA /\
        snd (x509_CertPool_AppendCertsFromPEM x509_NewCertPool pemServerCA) = false /\
        e = errNoServerCA)) /\
  (forall domain res e w',
     getCACert domain w = (Returns (res, Some e), w') ->
     res = None /\
     ((getCACert_handshake w domain = inl e /\
       calls w w' = [dial_event domain]) \/
      (exists chain,
         getCACert_handshake w domain = inr chain /\
         Forall (fun c => IsCA c = false) chain /\
         e = errNoCA /\
         calls w w' = [dial_event domain; close_event domain]))) /\
  (forall outputPath domain e w',
     DownloadCACert outputPath domain w = (Returns (Some e), w') ->
     getCACert domain w = (Returns (None, Some e), w') \/
     (exists cert w1 pemBytes,
        getCACert domain w = (Returns (Some cert, None), w1) /\
        calls w1 w' = [EvWriteFile outputPath pemBytes perm_0644] /\
        (create_fault w1 (now w1) outputPath = Some e \/
         exists n, write_fault w1 (now w1) outputPath = Some (n, e)))).
Proof.
  split; [| split; [| split]].
  - intros certPath keyPath res e w'. rewrite LoadTLSKeypair_run.
    destruct (read_result w (now w) certPath) as [e1 | certPEM].
    + intros [= <- <- <-]. split; [reflexivity |]. left.
      split; [reflexivity | apply calls_record1].
    + cbv zeta. destruct (read_result w (S (now w)) keyPath) as [e2 | keyPEM].
      * intros [= <- <- <-]. split; [reflexivity |]. right. exists certPEM.
        split; [reflexivity |]. split; [apply calls_record2 |]. left. reflexivity.
      * destruct (tls_X509KeyPair certPEM keyPEM) as [e3 | cert] eqn:Hpair;
          [| discriminate].
        intros [= <- <- <-]. split; [reflexivity |]. right. exists certPEM.
        split; [reflexivity |]. split; [apply calls_record2 |]. right.
        exists keyPEM. split; [reflexivity | exact Hpair].
  - intros cacertPath res e w'. rewrite ClientLoadCA_run.
    destruct (read_result w (now w) cacertPath) as [e1 | pem].
    + intros [= <- <- <-]. split; [reflexivity |]. split; [apply calls_record1 |].
      left. reflexivity.
    + destruct (x509_CertPool_AppendCertsFromPEM x509_NewCertPool pem) as [pool [|]] eqn:Happ;
        [discriminate |].
      intros [= <- <- <-]. split; [reflexivity |]. split; [apply calls_record1 |].
      right. exists pem. split; [reflexivity |]. rewrite Happ. split; reflexivity.
  - intros domain res e w'. rewrite getCACert_run.
    destruct (getCACert_handshake w domain) as [e1 | chain].
    + intros [= <- <- <-]. split; [reflexivity |]. left.
      split; [reflexivity | apply calls_record1].
    + destruct (getCACert_range chain) as [c|] eqn:Hrange; [discriminate |].
      intros [= <- <- <-]. split; [reflexivity |]. right. exists chain.
      split; [reflexivity |]. split; [apply getCACert_range_None; exact Hrange |].
      split; [reflexivity | apply calls_record2].
  - intros outputPath domain e w'. unfold DownloadCACert, bind.
    destruct (getCACert domain w) as [[[cert err] | msg] w1] eqn:Hget; [| discriminate].
    destruct (getCACert_result _ _ _ _ _ Hget) as [[-> [e1 ->]] | [[c ->] ->]].
    + intros [= <- <-]. left. reflexivity.
    + cbn [x509_Certificate_Raw ret]. unfold ioutil_WriteFile.
      intros Hw. right. exists c, w1. eexists. split; [reflexivity |].
      destruct (create_fault w1 (now w1) outputPath) as [e1|] eqn:Hc.
      * injection Hw as <- <-. split; [apply calls_record1 | left; reflexivity].
      * destruct (write_fault w1 (now w1) outputPath) as [[n e2]|] eqn:Hwf;
          [| discriminate].
        injection Hw as <- <-. split; [apply calls_app; reflexivity |].
        right. exists n. reflexivity.
Qed.


End PackageProperties.

(** ** The properties at work on the example worlds *)

Lemma getCACert_first_CA_witness :
  fst (getCACert "example.test" web_world) = Returns (Some root_cert, None) /\
  fst (getCACert "plain.test" web_world) = Returns (None, Some errNoCA) /\
  fst (getCACert "nobody.test" web_world)
    = Returns (None, Some (errors_New "dial tcp: connection refused")).
Proof.
  split; [| split].
  - apply (proj1 (getCACert_first_CA "example.test" web_world)
             [leaf_cert; root_cert] [leaf_cert] root_cert []);
      [reflexivity | reflexivity | repeat constructor | reflexivity].
  - apply (proj1 (proj2 (getCACert_first_CA "plain.test" web_world)) [leaf_cert]);
      [reflexivity | repeat constructor].
  - apply (proj2 (proj2 (getCACert_first_CA "nobody.test" web_world))). reflexivity.
Defined.

Lemma LoadTLSKeypair_rejects_witness :
  (exists e w',
     @LoadTLSKeypair demo_libraries "missing.crt" "server.key" disk_world
     = (Returns (None, Some e), w')) /\
  (exists e w',
     @LoadTLSKeypair demo_libraries "server.crt" "other.key" disk_world
     = (Returns (None, Some e), w')).
Proof.
  split.
  - apply (@LoadTLSKeypair_rejects demo_libraries). left. reflexivity.
  - apply (@LoadTLSKeypair_rejects demo_libraries). do 4 right.
    exists (pem_text "CERTIFICATE" "server"), (pem_text "PRIVATE KEY" "other").
    eexists. split; [reflexivity | split; [reflexivity | reflexivity]].
Defined.

Lemma LoadTLSKeypair_valid_witness :
  exists creds w',
    @LoadTLSKeypair demo_libraries "server.crt" "server.key" disk_world
    = (Returns (Some creds, None), w') /\
    Certificates (creds_config creds)
    = [{| Certificate := [bytes_of "server"]; PrivateKey := bytes_of "server" |}] /\
    GetCertificate (creds_config creds) = None /\
    ClientAuth (creds_config creds) = NoClientCert.
Proof.
  apply (@LoadTLSKeypair_valid demo_libraries "server.crt" "server.key" disk_world
           (pem_text "CERTIFICATE" "server") (pem_text "PRIVATE KEY" "server"));
    reflexivity.
Defined.

Lemma DownloadCACert_persists_witness :
  (exists w' pemBytes,
     DownloadCACert "ca.pem" "example.test" web_world = (Returns None, w') /\
     files web_world !! "ca.pem"%string = Some (bytes_of "stale") /\
     files w' !! "ca.pem"%string = Some pemBytes /\
     pem_Decode pemBytes = (Some (CERTIFICATE_block (Raw root_cert)), [])) /\
  (exists w',
     DownloadCACert "/proc/ca.pem" "example.test" web_world
     = (Returns (Some (errors_New "open /proc/ca.pem: permission denied")), w')) /\
  (exists w1,
     DownloadCACert "ca.pem" "plain.test" web_world = (Returns (Some errNoCA), w1) /\
     files w1 = files web_world).
Proof.
  split; [| split].
  - destruct (proj1 (DownloadCACert_persists "ca.pem" "example.test" web_world)
                root_cert _ eq_refl) as [pemBytes [Henc [Hdec [Hok Hfail]]]].
    destruct (Hok eq_refl eq_refl) as [w' [Hrun [Hfiles Hlook]]].
    exists w', pemBytes. split; [exact Hrun |].
    split; [reflexivity |]. split; [exact Hlook | exact Hdec].
  - destruct (proj1 (DownloadCACert_persists "/proc/ca.pem" "example.test" web_world)
                root_cert _ eq_refl) as [pemBytes [Henc [Hdec [Hok Hfail]]]].
    apply Hfail. left. reflexivity.
  - destruct (proj2 (DownloadCACert_persists "ca.pem" "plain.test" web_world)
                errNoCA _ eq_refl) as [Hrun [Hfiles Hcalls]].
    eexists. split; [exact Hrun | exact Hfiles].
Defined.

(** The certificate cannot be read at the first moment and could be at the
    next: [LoadTLSKeypair] reads once and reports the failure. *)
Lemma loaders_do_not_retry_witness :
  calls flaky_disk_world
        (snd (@LoadTLSKeypair demo_libraries "server.crt" "server.key" flaky_disk_world))
  = [EvReadFile "server.crt"] /\
  fst (@LoadTLSKeypair demo_libraries "server.crt" "server.key" flaky_disk_world)
  = Returns (None, Some (errors_New "read: input/output error")) /\
  read_result flaky_disk_world 1 "server.crt" = inr (pem_text "CERTIFICATE" "server").
Proof.
  destruct (proj1 (@loaders_do_not_retry demo_libraries flaky_disk_world)
              "server.crt" "server.key" None
              (errors_New "read: input/output error") _ eq_refl)
    as [_ [[_ Hcalls] | [certPEM [Hread _]]]].
  - split; [exact Hcalls |]. split; reflexivity.
  - discriminate Hread.
Defined.

(** A bundle with one certificate gives a pool of one; a file without a
    certificate is refused. *)
Example ClientLoadCA_bundle :
  fst (@ClientLoadCA demo_libraries "server.crt" disk_world)
  = Returns (Some (credentials_NewTLS
                     (client_config [{| Raw := bytes_of "server"; IsCA := true;
                                        Subject := "" |}])), None).
Proof. reflexivity. Qed.

Example ClientLoadCA_no_certificate :
  fst (@ClientLoadCA demo_libraries "notes.txt" disk_world)
  = Returns (None, Some errNoServerCA).
Proof. reflexivity. Qed.

(** The certificate saved by [DownloadCACert] is the trust of a client
    that loads the saved file. *)
Example DownloadCACert_then_ClientLoadCA :
  fst (@ClientLoadCA demo_libraries "ca.pem"
         (snd (DownloadCACert "ca.pem" "example.test" web_world)))
  = Returns (Some (credentials_NewTLS
                     (client_config [{| Raw := Raw root_cert; IsCA := true;
                                        Subject := "" |}])), None).
Proof. reflexivity. Qed.

Example GenerateTLSConfig_staging :
  calls web_world
        (snd (@GenerateTLSConfig demo_libraries true "ops@example.test"
                ["example.test"%string] web_world))
  = [EvManageSync (@managed_config demo_libraries true "ops@example.test")
                  ["example.test"%string]] /\
  CA <$> Issuer (@managed_config demo_libraries true "ops@example.test")
  = Some LetsEncryptStagingCA /\
  CA <$> Issuer (@managed_config demo_libraries false "ops@example.test")
  = Some LetsEncryptProductionCA.
Proof. repeat split. Qed.

(** * Further properties *)

(** ** Timestamps *)

Lemma time_Unix_floor n :
  - 2 ^ 63 <= n < 2 ^ 63 ->
  time_Unix 0 n =
  {| time_sec := n / 1000000000; time_nsec := n mod 1000000000; time_utc := false |}.
Proof.
  intros Hn.
  destruct (Z_lt_le_dec n 0) as [Hneg | Hpos]; [| apply time_Unix_nonneg; lia].
  assert (Hm : 0 <= n mod 1000000000 < 1000000000) by (apply Z.mod_pos_bound; lia).
  assert (Hdm : n = 1000000000 * (n / 1000000000) + n mod 1000000000)
    by (apply Z.div_mod; lia).
  pose proof (Z.quot_rem' n 1000000000) as Hqr.
  pose proof (Z.rem_bound_pos_neg n 1000000000 ltac:(lia) ltac:(lia)) as Hrem.
  unfold time_Unix, go_div.
  destruct (n <? 0) eqn:Hlt; [| apply Z.ltb_ge in Hlt; lia].
  cbn [orb].
  set (q := Z.quot n 1000000000) in *. set (r := Z.rem n 1000000000) in *.
  assert (Hq : - 2 ^ 63 <= q <= 0) by lia.
  rewrite (int64_small q) by lia.
  rewrite (int64_small (0 + q)) by lia.
  rewrite (int64_small (q * 1000000000)) by lia.
  replace (n - q * 1000000000) with r by lia.
  rewrite (int64_small r) by lia.
  destruct (r <? 0) eqn:Hr.
  - apply Z.ltb_lt in Hr.
    rewrite (int64_small (r + 1000000000)) by lia.
    rewrite (int32_small (r + 1000000000)) by lia.
    rewrite (int64_small (0 + q - 1)) by lia.
    assert (Hd : n / 1000000000 = q - 1) by nia.
    assert (Hmo : n mod 1000000000 = r + 1000000000) by lia.
    rewrite Hd, Hmo. f_equal.
  - apply Z.ltb_ge in Hr. assert (r = 0) by lia.
    rewrite (int32_small r) by lia.
    assert (Hd : n / 1000000000 = q) by nia.
    assert (Hmo : n mod 1000000000 = r) by lia.
    rewrite Hd, Hmo. reflexivity.
Qed.

Lemma UnixToUtcTS_floor (n : Z) :
  - 2 ^ 63 <= n < 2 ^ 63 ->
  Seconds (UnixToUtcTS n) = n / 1000000000 /\
  Nanos (UnixToUtcTS n) = n mod 1000000000.
Proof.
  intros Hn. unfold UnixToUtcTS. rewrite time_Unix_floor by exact Hn.
  unfold timestamppb_New, time_UTC, time_Time_Unix, time_Time_Nanosecond.
  cbn [Seconds Nanos time_sec time_nsec].
  assert (Hm : 0 <= n mod 1000000000 < 1000000000) by (apply Z.mod_pos_bound; lia).
  assert (Hdm : n = 1000000000 * (n / 1000000000) + n mod 1000000000)
    by (apply Z.div_mod; lia).
  rewrite int64_small by lia. rewrite int32_small by lia. split; reflexivity.
Qed.

(** X1: for every int64 [n], also a negative one, [UnixToUtcTS n] is a
    normalised timestamp that stands for [n] nanoseconds: its nanoseconds
    are in [0, 1e9) and seconds times 1e9 plus nanoseconds is [n]. *)
Theorem UnixToUtcTS_normalised (n : Z) :
  - 2 ^ 63 <= n < 2 ^ 63 ->
  0 <= Nanos (UnixToUtcTS n) < 1000000000 /\
  Seconds (UnixToUtcTS n) * 1000000000 + Nanos (UnixToUtcTS n) = n.
Proof.
  intros Hn. destruct (UnixToUtcTS_floor n Hn) as [-> ->].
  assert (Hm : 0 <= n mod 1000000000 < 1000000000) by (apply Z.mod_pos_bound; lia).
  assert (Hdm : n = 1000000000 * (n / 1000000000) + n mod 1000000000)
    by (apply Z.div_mod; lia).
  lia.
Qed.

Lemma UnixToUtcTS_normalised_witness :
  0 <= Nanos (UnixToUtcTS (-1)) < 1000000000 /\
  Seconds (UnixToUtcTS (-1)) * 1000000000 + Nanos (UnixToUtcTS (-1)) = -1.
Proof. apply (UnixToUtcTS_normalised (-1)). lia. Defined.

(** X2: converting to a timestamp and back gives the number back exactly
    for the numbers below one second, [0 <= n < 1e9], and for no other
    int64; a negative number comes back as a non-negative one. *)
Theorem TsToUnixUTC_identity_iff (n : Z) :
  - 2 ^ 63 <= n < 2 ^ 63 ->
  (TsToUnixUTC (Some (UnixToUtcTS n)) = n <-> 0 <= n < 1000000000) /\
  0 <= TsToUnixUTC (Some (UnixToUtcTS n)) < 1000000000.
Proof.
  intros Hn. destruct (UnixToUtcTS_floor n Hn) as [_ Hnanos].
  assert (Hm : 0 <= n mod 1000000000 < 1000000000) by (apply Z.mod_pos_bound; lia).
  unfold TsToUnixUTC, GetNanos. rewrite Hnanos, int64_small by lia.
  split; [| exact Hm]. split; [lia |].
  intros Hsmall. apply Z.mod_small. exact Hsmall.
Qed.

Lemma TsToUnixUTC_identity_iff_witness :
  (TsToUnixUTC (Some (UnixToUtcTS (-1))) = -1 <-> 0 <= -1 < 1000000000) /\
  0 <= TsToUnixUTC (Some (UnixToUtcTS (-1))) < 1000000000.
Proof. apply (TsToUnixUTC_identity_iff (-1)). lia. Defined.

(** X3: the timestamp of the current time: for a clock between the years
    1678 and 2262, where the nanoseconds since the epoch fit an int64,
    [UnixToUtcTS] of [CurrentTimestamp] has the seconds and the nanoseconds
    the clock shows. *)
Theorem UnixToUtcTS_CurrentTimestamp `{Clock} (w : World) :
  0 <= time_nsec (time_Now (now w)) < 1000000000 ->
  - 2 ^ 63 <= time_sec (time_Now (now w)) * 1000000000 ->
  time_sec (time_Now (now w)) * 1000000000 + time_nsec (time_Now (now w)) < 2 ^ 63 ->
  exists n,
    CurrentTimestamp w = (Returns n, w) /\
    UnixToUtcTS n = {| Seconds := time_sec (time_Now (now w));
                       Nanos := time_nsec (time_Now (now w)) |}.
Proof.
  intros Hns Hlo Hhi. eexists. split; [reflexivity |].
  set (t := time_Now (now w)) in *.
  unfold time_Time_UnixNano, time_UTC. cbn [time_sec time_nsec].
  rewrite (int64_small (time_sec t * 1000000000)) by lia.
  rewrite (int64_small (time_nsec t)) by lia.
  rewrite int64_small by lia.
  unfold UnixToUtcTS. rewrite time_Unix_floor by lia.
  unfold timestamppb_New, time_UTC, time_Time_Unix, time_Time_Nanosecond.
  cbn [time_sec time_nsec].
  assert (Hd : (time_sec t * 1000000000 + time_nsec t) / 1000000000 = time_sec t).
  { symmetry. apply (Z.div_unique _ _ _ (time_nsec t)); lia. }
  assert (Hm : (time_sec t * 1000000000 + time_nsec t) mod 1000000000 = time_nsec t).
  { symmetry. apply (Z.mod_unique _ _ (time_sec t)); lia. }
  rewrite Hd, Hm. rewrite int64_small by lia. rewrite int32_small by lia. reflexivity.
Qed.

(** ** DedupSlice *)

Lemma DedupSlice_round_acc l : forall keys acc,
  fold_left DedupSlice_round l (keys, acc) =
  (fst (fold_left DedupSlice_round l (keys, [])),
   acc ++ snd (fold_left DedupSlice_round l (keys, []))).
Proof.
  induction l as [|x l IH]; intros keys acc; cbn [fold_left].
  - cbn [fst snd]. rewrite app_nil_r. reflexivity.
  - unfold DedupSlice_round at 2 4 6. destruct (keys !! x).
    + apply IH.
    + cbn [app]. rewrite (IH _ (acc ++ [x])), (IH _ [x]). cbn [fst snd].
      rewrite <- app_assoc. reflexivity.
Qed.

Lemma DedupSlice_from_cons keys x l :
  DedupSlice_from keys (x :: l) =
  match keys !! x with
  | Some _ => DedupSlice_from keys l
  | None => x :: DedupSlice_from (<[x := true]> keys) l
  end.
Proof.
  unfold DedupSlice_from. cbn [fold_left]. unfold DedupSlice_round at 2.
  destruct (keys !! x); [reflexivity |].
  cbn [app]. rewrite DedupSlice_round_acc. reflexivity.
Qed.

Lemma DedupSlice_from_filter l : forall keys,
  DedupSlice_from keys l = filter (fun y => keys !! y = None) (DedupSlice_from ∅ l).
Proof.
  induction l as [|x l IH]; intros keys; [reflexivity |].
  rewrite !DedupSlice_from_cons, lookup_empty.
  rewrite (IH (<[x := true]> ∅)).
  destruct (keys !! x) as [b|] eqn:Hx.
  - rewrite filter_cons_False by (rewrite Hx; discriminate).
    rewrite list_filter_filter, IH. apply list_filter_iff.
    intros y. split; [intros Hy; split; [exact Hy |] | intros [Hy _]; exact Hy].
    destruct (decide (x = y)) as [-> | Hne]; [congruence |].
    rewrite lookup_insert_ne by exact Hne. apply lookup_empty.
  - rewrite filter_cons_True by exact Hx. f_equal.
    rewrite list_filter_filter, IH. apply list_filter_iff.
    intros y. destruct (decide (x = y)) as [-> | Hne].
    + rewrite !lookup_insert_eq. split; [discriminate | intros [_ Hy]; discriminate].
    + rewrite !lookup_insert_ne by exact Hne. rewrite lookup_empty. tauto.
Qed.

Lemma DedupSlice_cons x l :
  DedupSlice (x :: l) = x :: filter (fun y => y <> x) (DedupSlice l).
Proof.
  change (DedupSlice (x :: l)) with (DedupSlice_from ∅ (x :: l)).
  rewrite DedupSlice_from_cons, lookup_empty. f_equal.
  rewrite DedupSlice_from_filter. apply list_filter_iff.
  intros y. destruct (decide (x = y)) as [-> | Hne].
  - rewrite lookup_insert_eq. split; [discriminate | congruence].
  - rewrite lookup_insert_ne by exact Hne. rewrite lookup_empty. split; congruence.
Qed.

Lemma DedupSlice_elem (l : list string) (s : string) :
  s ∈ DedupSlice l <-> s ∈ l.
Proof.
  induction l as [|x l IH]; [reflexivity |].
  rewrite DedupSlice_cons, !elem_of_cons, list_elem_of_filter, IH.
  destruct (decide (s = x)); tauto.
Qed.

Lemma DedupSlice_no_copy (l : list string) : NoDup (DedupSlice l).
Proof.
  induction l as [|x l IH]; [constructor |].
  rewrite DedupSlice_cons. constructor.
  - rewrite list_elem_of_filter. intros [Hne _]. congruence.
  - apply NoDup_filter. exact IH.
Qed.

(** X4: the result of [DedupSlice] has no string twice and has exactly the
    strings of the input. *)
Theorem DedupSlice_NoDup (stringSlice : list string) :
  NoDup (DedupSlice stringSlice) /\
  forall s, s ∈ DedupSlice stringSlice <-> s ∈ stringSlice.
Proof.
  split; [apply DedupSlice_no_copy | intros s; apply DedupSlice_elem].
Qed.

(** X5: [DedupSlice] keeps the first copy of each string, in the order of
    the input: the result is a sublist of the input, and the result for
    [x :: l] is [x] followed by the result for [l] without [x]. *)
Theorem DedupSlice_first_copy (x : string) (l : list string) :
  DedupSlice (x :: l) = x :: filter (fun y => y <> x) (DedupSlice l) /\
  DedupSlice l `sublist_of` l /\
  DedupSlice [] = [].
Proof.
  split; [apply DedupSlice_cons |]. split; [| reflexivity].
  clear x. induction l as [|x l IH]; [reflexivity |].
  rewrite DedupSlice_cons. apply sublist_skip.
  etransitivity; [apply sublist_filter | exact IH].
Qed.

(** X6: the slices [DedupSlice] leaves as they are, are exactly those
    without duplicates; so applying it twice is applying it once. *)
Theorem DedupSlice_fixed_point (stringSlice : list string) :
  (DedupSlice stringSlice = stringSlice <-> NoDup stringSlice) /\
  DedupSlice (DedupSlice stringSlice) = DedupSlice stringSlice.
Proof.
  assert (Hfix : forall l, NoDup l -> DedupSlice l = l).
  { induction l as [|x l IH]; intros Hnd; [reflexivity |].
    inversion Hnd as [|? ? Hx Hl]; subst.
    rewrite DedupSlice_cons, IH by exact Hl. f_equal.
    apply filter_all. apply Forall_forall. intros y Hy ->. exact (Hx Hy). }
  split.
  - split; [| apply Hfix].
    intros Heq. rewrite <- Heq. apply DedupSlice_no_copy.
  - apply Hfix, DedupSlice_no_copy.
Qed.

(** ** DecodeB64 *)

Lemma base64_RawDecode_digit d c src si q out :
  base64_decodeMap c = Some d ->
  base64_RawDecode (c :: src) si q out =
  if bool_decide (length (q ++ [d]) = 4%nat)
  then base64_RawDecode src (S si) [] (out ++ base64_quantum_bytes (q ++ [d]))
  else base64_RawDecode src (S si) (q ++ [d]) out.
Proof. intros Hd. cbn [base64_RawDecode]. rewrite Hd. reflexivity. Qed.

Lemma quantum_bytes_4 a b c :
  let val := Z.lor (Z.lor (Z.shiftl (byte_to_Z a) 16) (Z.shiftl (byte_to_Z b) 8))
                   (byte_to_Z c) in
  base64_quantum_bytes [digit val 18; digit val 12; digit val 6; digit val 0] = [a; b; c].
Proof.
  intros val.
  pose proof (byte_to_Z_range a) as Ha. pose proof (byte_to_Z_range b) as Hb.
  pose proof (byte_to_Z_range c) as Hc.
  assert (Hval : val = byte_to_Z a * 65536 + byte_to_Z b * 256 + byte_to_Z c)
    by (unfold val; apply group3_add; assumption).
  unfold base64_quantum_bytes. cbn [nth length Nat.sub take].
  rewrite digits_quantum by lia.
  f_equal; [| f_equal; [| f_equal]]; apply byte_of_Z_eq;
    rewrite Z.shiftr_div_pow2, Hval by lia.
  - change (2 ^ 16) with 65536. Z.div_mod_to_equations. lia.
  - change (2 ^ 8) with 256. Z.div_mod_to_equations. lia.
  - change (2 ^ 0) with 1. Z.div_mod_to_equations. lia.
Qed.

Lemma quantum_bytes_3 a b :
  let val := Z.lor (Z.shiftl (byte_to_Z a) 16) (Z.shiftl (byte_to_Z b) 8) in
  base64_quantum_bytes [digit val 18; digit val 12; digit val 6] = [a; b].
Proof.
  intros val.
  pose proof (byte_to_Z_range a) as Ha. pose proof (byte_to_Z_range b) as Hb.
  assert (Hval : val = byte_to_Z a * 65536 + byte_to_Z b * 256)
    by (unfold val; apply group2_add; assumption).
  unfold base64_quantum_bytes. cbn [nth length Nat.sub take].
  rewrite digits_quantum2 by (rewrite Hval; Z.div_mod_to_equations; lia).
  f_equal; [| f_equal]; apply byte_of_Z_eq;
    rewrite Z.shiftr_div_pow2, Hval by lia.
  - change (2 ^ 16) with 65536. Z.div_mod_to_equations. lia.
  - change (2 ^ 8) with 256. Z.div_mod_to_equations. lia.
Qed.

Lemma quantum_bytes_2 a :
  let val := Z.shiftl (byte_to_Z a) 16 in
  base64_quantum_bytes [digit val 18; digit val 12] = [a].
Proof.
  intros val.
  pose proof (byte_to_Z_range a) as Ha.
  assert (Hval : val = byte_to_Z a * 65536)
    by (unfold val; rewrite Z.shiftl_mul_pow2 by lia; reflexivity).
  unfold base64_quantum_bytes. cbn [nth length Nat.sub take].
  rewrite digits_quantum1 by (rewrite Hval; Z.div_mod_to_equations; lia).
  f_equal. apply byte_of_Z_eq.
  rewrite Z.shiftr_div_pow2, Hval by lia.
  change (2 ^ 16) with 65536. Z.div_mod_to_equations. lia.
Qed.

Lemma base64_RawDecode_RawEncode src : forall si out,
  base64_RawDecode (base64_RawEncode src) si [] out = (out ++ src, None).
Proof.
  induction src as [| a | a b | a b c rest IH] using list_ind3; intros si out.
  - cbn. rewrite app_nil_r. reflexivity.
  - cbn [base64_RawEncode].
    set (val := Z.shiftl (byte_to_Z a) 16).
    change (Z.land (Z.shiftr val 18) 63) with (digit val 18).
    change (Z.land (Z.shiftr val 12) 63) with (digit val 12).
    rewrite (base64_RawDecode_digit (digit val 18)) by (apply decodeMap_digit; lia).
    cbn [app length bool_decide decide_rel]. rewrite bool_decide_eq_false_2 by discriminate.
    rewrite (base64_RawDecode_digit (digit val 12)) by (apply decodeMap_digit; lia).
    rewrite bool_decide_eq_false_2 by discriminate.
    cbn [app base64_RawDecode]. unfold val. rewrite (quantum_bytes_2 a). reflexivity.
  - cbn [base64_RawEncode].
    set (val := Z.lor _ _).
    change (Z.land (Z.shiftr val 18) 63) with (digit val 18).
    change (Z.land (Z.shiftr val 12) 63) with (digit val 12).
    change (Z.land (Z.shiftr val 6) 63) with (digit val 6).
    rewrite (base64_RawDecode_digit (digit val 18)) by (apply decodeMap_digit; lia).
    rewrite bool_decide_eq_false_2 by discriminate.
    rewrite (base64_RawDecode_digit (digit val 12)) by (apply decodeMap_digit; lia).
    rewrite bool_decide_eq_false_2 by discriminate.
    rewrite (base64_RawDecode_digit (digit val 6)) by (apply decodeMap_digit; lia).
    rewrite bool_decide_eq_false_2 by discriminate.
    cbn [app base64_RawDecode]. unfold val. rewrite (quantum_bytes_3 a b). reflexivity.
  - cbn [base64_RawEncode].
    set (val := Z.lor _ _).
    change (Z.land (Z.shiftr val 18) 63) with (digit val 18).
    change (Z.land (Z.shiftr val 12) 63) with (digit val 12).
    change (Z.land (Z.shiftr val 6) 63) with (digit val 6).
    change (Z.land val 63) with (digit val 0).
    rewrite (base64_RawDecode_digit (digit val 18)) by (apply decodeMap_digit; lia).
    rewrite bool_decide_eq_false_2 by discriminate.
    rewrite (base64_RawDecode_digit (digit val 12)) by (apply decodeMap_digit; lia).
    rewrite bool_decide_eq_false_2 by discriminate.
    rewrite (base64_RawDecode_digit (digit val 6)) by (apply decodeMap_digit; lia).
    rewrite bool_decide_eq_false_2 by discriminate.
    rewrite (base64_RawDecode_digit (digit val 0)) by (apply decodeMap_digit; lia).
    rewrite bool_decide_eq_true_2 by reflexivity.
    cbn [app]. unfold val. rewrite (quantum_bytes_4 a b c).
    rewrite IH, <- app_assoc. reflexivity.
Qed.

(** X7: [DecodeB64] undoes the unpadded standard encoding: for every byte
    slice, decoding the text [RawStdEncoding] writes for it returns the
    slice and no error. *)
Theorem DecodeB64_RawEncode (src : bytes) :
  DecodeB64 (string_of_list_byte (base64_RawEncode src)) = (src, None).
Proof.
  unfold DecodeB64, base64_RawStdEncoding_DecodeString, bytes_of.
  rewrite list_byte_of_string_of_list_byte.
  apply (base64_RawDecode_RawEncode src 0 []).
Qed.

Lemma base64_decodeMap_newline c :
  c = x0a \/ c = x0d -> base64_decodeMap c = None.
Proof. intros [-> | ->]; reflexivity. Qed.

Lemma base64_RawDecode_illegal pre : forall c post si q out,
  Forall base64_raw_ok pre -> ~ base64_raw_ok c ->
  snd (base64_RawDecode (pre ++ c :: post) si q out)
  = Some (base64_CorruptInputError (si + length pre)).
Proof.
  induction pre as [|x pre IH]; intros c post si q out Hpre Hc.
  - cbn [app base64_RawDecode length]. rewrite Nat.add_0_r.
    destruct (base64_decodeMap c) as [d|] eqn:Hd.
    + exfalso. apply Hc. left. exists d. exact Hd.
    + rewrite bool_decide_eq_false_2; [reflexivity |].
      intros Hnl. apply Hc. right. exact Hnl.
  - inversion Hpre as [|? ? Hx Hpre']; subst.
    cbn [app length]. replace (si + S (length pre))%nat with (S si + length pre)%nat by lia.
    cbn [base64_RawDecode].
    destruct (base64_decodeMap x) as [d|] eqn:Hd.
    + destruct (bool_decide (length (q ++ [d]) = 4%nat)); apply IH; assumption.
    + destruct Hx as [[d' Hd'] | Hnl]; [congruence |].
      rewrite bool_decide_eq_true_2 by exact Hnl. apply IH; assumption.
Qed.

(** X8: [DecodeB64] stops at the first byte that is neither a character of
    the alphabet nor a line break, and reports its index: the error is
    "illegal base64 data at input byte" with the number of bytes before it.
    The padding character [=] is such a byte: padded text is refused. *)
Theorem DecodeB64_illegal (i : string) (pre : bytes) (c : byte) (post : bytes) :
  bytes_of i = pre ++ c :: post ->
  Forall base64_raw_ok pre -> ~ base64_raw_ok c ->
  snd (DecodeB64 i) = Some (base64_CorruptInputError (length pre)) /\
  ~ base64_raw_ok StdPadding.
Proof.
  intros Hi Hpre Hc. split.
  - unfold DecodeB64, base64_RawStdEncoding_DecodeString. rewrite Hi.
    apply (base64_RawDecode_illegal pre c post 0). exact Hpre. exact Hc.
  - intros [[d Hd] | [Hnl | Hcr]]; discriminate.
Qed.

Lemma base64_RawEncode_whole src : forall tail si out,
  (length src mod 3 = 0)%nat ->
  base64_RawDecode (base64_RawEncode src ++ tail) si [] out
  = base64_RawDecode tail (si + length (base64_RawEncode src)) [] (out ++ src).
Proof.
  induction src as [| a | a b | a b c rest IH] using list_ind3; intros tail si out Hlen.
  - cbn [base64_RawEncode app length]. rewrite Nat.add_0_r, app_nil_r. reflexivity.
  - discriminate Hlen.
  - discriminate Hlen.
  - cbn [base64_RawEncode].
    set (val := Z.lor _ _).
    change (Z.land (Z.shiftr val 18) 63) with (digit val 18).
    change (Z.land (Z.shiftr val 12) 63) with (digit val 12).
    change (Z.land (Z.shiftr val 6) 63) with (digit val 6).
    change (Z.land val 63) with (digit val 0).
    cbn [app length].
    rewrite (base64_RawDecode_digit (digit val 18)) by (apply decodeMap_digit; lia).
    rewrite bool_decide_eq_false_2 by discriminate.
    rewrite (base64_RawDecode_digit (digit val 12)) by (apply decodeMap_digit; lia).
    rewrite bool_decide_eq_false_2 by discriminate.
    rewrite (base64_RawDecode_digit (digit val 6)) by (apply decodeMap_digit; lia).
    rewrite bool_decide_eq_false_2 by discriminate.
    rewrite (base64_RawDecode_digit (digit val 0)) by (apply decodeMap_digit; lia).
    rewrite bool_decide_eq_true_2 by reflexivity.
    cbn [app]. unfold val. rewrite (quantum_bytes_4 a b c).
    rewrite IH.
    + rewrite <- app_assoc. cbn [app]. f_equal. lia.
    + cbn [length] in Hlen.
      replace (S (S (S (length rest)))) with (length rest + 1 * 3)%nat in Hlen by lia.
      rewrite Nat.Div0.mod_add in Hlen. exact Hlen.
Qed.

(** X9: with an error [DecodeB64] still returns bytes: when whole groups
    of three bytes, encoded, are followed by a byte it refuses, it returns
    those bytes together with the error, not [nil]. *)
Theorem DecodeB64_partial (i : string) (src : bytes) (c : byte) (post : bytes) :
  (length src mod 3 = 0)%nat ->
  bytes_of i = base64_RawEncode src ++ c :: post ->
  ~ base64_raw_ok c ->
  DecodeB64 i =
  (src, Some (base64_CorruptInputError (length (base64_RawEncode src)))).
Proof.
  intros Hlen Hi Hc. unfold DecodeB64, base64_RawStdEncoding_DecodeString.
  rewrite Hi, base64_RawEncode_whole by exact Hlen.
  cbn [base64_RawDecode app Nat.add].
  destruct (base64_decodeMap c) as [d|] eqn:Hd.
  - exfalso. apply Hc. left. exists d. exact Hd.
  - rewrite bool_decide_eq_false_2; [reflexivity |].
    intros Hnl. apply Hc. right. exact Hnl.
Qed.

(** ** Strings in byte order *)

Lemma String_compare_refl s : String.compare s s = Eq.
Proof.
  induction s as [|c s IH]; [reflexivity |].
  cbn [String.compare]. unfold Ascii.compare. rewrite N.compare_refl. exact IH.
Qed.

Lemma String_compare_trans_le s1 : forall s2 s3,
  String.compare s1 s2 <> Gt -> String.compare s2 s3 <> Gt -> String.compare s1 s3 <> Gt.
Proof.
  induction s1 as [|c1 s1 IH]; intros [|c2 s2] [|c3 s3]; cbn [String.compare];
    try congruence.
  unfold Ascii.compare.
  destruct (N.compare_spec (N_of_ascii c1) (N_of_ascii c2)) as [H12 | H12 | H12];
    destruct (N.compare_spec (N_of_ascii c2) (N_of_ascii c3)) as [H23 | H23 | H23];
    destruct (N.compare_spec (N_of_ascii c1) (N_of_ascii c3)) as [H13 | H13 | H13];
    try congruence; try lia.
  apply IH.
Qed.

Lemma String_leb_trans s1 s2 s3 :
  String.leb s1 s2 = true -> String.leb s2 s3 = true -> String.leb s1 s3 = true.
Proof.
  unfold String.leb. intros H12 H23.
  pose proof (String_compare_trans_le s1 s2 s3) as Ht.
  destruct (String.compare s1 s2), (String.compare s2 s3), (String.compare s1 s3);
    try reflexivity; try discriminate; exfalso; apply Ht; congruence.
Qed.

Lemma String_ltb_leb s1 s2 : String.ltb s1 s2 = true -> String.leb s1 s2 = true.
Proof. unfold String.ltb, String.leb. destruct (String.compare s1 s2); congruence. Qed.

Lemma String_ltb_false_leb s1 s2 : String.ltb s1 s2 = false -> String.leb s2 s1 = true.
Proof.
  unfold String.ltb, String.leb. rewrite (String.compare_antisym s2 s1).
  destruct (String.compare s1 s2); cbn [CompOpp]; congruence.
Qed.

Lemma String_leb_ltb_false s1 s2 : String.leb s1 s2 = true -> String.ltb s2 s1 = false.
Proof.
  unfold String.ltb, String.leb. rewrite (String.compare_antisym s2 s1).
  destruct (String.compare s1 s2); cbn [CompOpp]; congruence.
Qed.

#[local] Instance name_le_trans : Transitive name_le.
Proof. intros a b c. unfold name_le. apply String_leb_trans. Qed.

(** ** sort.SliceStable *)

Lemma sort_insert_Permutation {A} (less : A -> A -> bool) x l :
  sort_insert less x l ≡ₚ x :: l.
Proof.
  induction l as [|y l IH]; cbn [sort_insert]; [reflexivity |].
  destruct (less x y); [reflexivity |].
  rewrite IH. apply Permutation_swap.
Qed.

Lemma sort_SliceStable_Permutation {A} (less : A -> A -> bool) l :
  sort_SliceStable less l ≡ₚ l.
Proof.
  unfold sort_SliceStable.
  assert (Hgen : forall acc, fold_left (fun sorted x => sort_insert less x sorted) l acc
                             ≡ₚ acc ++ l).
  { induction l as [|x l IH]; intros acc; cbn [fold_left].
    - rewrite app_nil_r. reflexivity.
    - rewrite IH, sort_insert_Permutation. cbn [app]. apply Permutation_middle. }
  apply (Hgen []).
Qed.

Lemma sort_insert_sorted x l :
  StronglySorted name_le l -> StronglySorted name_le (sort_insert byName x l).
Proof.
  intros Hs. induction Hs as [|y l Hs IH Hy]; cbn [sort_insert].
  - repeat constructor.
  - unfold byName at 1. destruct (String.ltb (fi_Name x) (fi_Name y)) eqn:Hlt.
    + constructor; [constructor; assumption |].
      apply String_ltb_leb in Hlt. constructor; [exact Hlt |].
      eapply Forall_impl; [exact Hy |]. intros z Hz. unfold name_le in *.
      eapply String_leb_trans; eassumption.
    + constructor; [exact IH |].
      apply String_ltb_false_leb in Hlt.
      rewrite Forall_forall. intros z Hz.
      rewrite sort_insert_Permutation in Hz. apply elem_of_cons in Hz as [-> | Hz].
      * exact Hlt.
      * rewrite Forall_forall in Hy. apply Hy, Hz.
Qed.

Lemma sort_SliceStable_sorted l : StronglySorted name_le (sort_SliceStable byName l).
Proof.
  unfold sort_SliceStable.
  assert (Hgen : forall acc, StronglySorted name_le acc ->
    StronglySorted name_le (fold_left (fun sorted x => sort_insert byName x sorted) l acc)).
  { induction l as [|x l IH]; intros acc Hacc; cbn [fold_left]; [exact Hacc |].
    apply IH, sort_insert_sorted, Hacc. }
  apply Hgen. constructor.
Qed.

(** An element not below any of a slice goes to its end. *)
Lemma sort_insert_last x l :
  Forall (fun y => name_le y x) l -> sort_insert byName x l = l ++ [x].
Proof.
  intros Hall. induction Hall as [|y l Hy Hall IH]; cbn [sort_insert app]; [reflexivity |].
  unfold byName at 1. rewrite (String_leb_ltb_false _ _ Hy), IH. reflexivity.
Qed.

Lemma StronglySorted_before l1 x l2 :
  StronglySorted name_le (l1 ++ x :: l2) -> Forall (fun y => name_le y x) l1.
Proof.
  induction l1 as [|z l1 IH]; intros Hs; [constructor |].
  cbn [app] in Hs. inversion Hs as [|? ? Hs' Hz]; subst.
  constructor; [| apply IH; exact Hs'].
  rewrite Forall_forall in Hz. apply Hz. apply elem_of_app. right. left.
Qed.

(** Sorting a slice that is in order leaves it as it is. *)
Lemma sort_SliceStable_sorted_id l :
  StronglySorted name_le l -> sort_SliceStable byName l = l.
Proof.
  unfold sort_SliceStable.
  assert (Hgen : forall l2 l1, StronglySorted name_le (l1 ++ l2) ->
    fold_left (fun sorted x => sort_insert byName x sorted) l2 l1 = l1 ++ l2).
  { induction l2 as [|x l2 IH]; intros l1 Hs; cbn [fold_left].
    - rewrite app_nil_r. reflexivity.
    - rewrite sort_insert_last by (eapply StronglySorted_before; exact Hs).
      rewrite IH; rewrite <- app_assoc; [reflexivity | exact Hs]. }
  intros Hs. apply (Hgen l []). exact Hs.
Qed.

(** ** The file tree helpers *)

Section FileTreeProperties.
Context `{FileTree}.

(** X10: [ListFiles] returns the entries of the directory in the byte
    order of their names, every entry once (a permutation of what the
    directory lists); when the directory cannot be listed it returns no
    entries and the error. *)
Theorem ListFiles_sorted (dirpath : string) (w : World) :
  match readdir (now w) dirpath with
  | inl e => ListFiles dirpath w = (Returns ([], Some e), w)
  | inr entries =>
    exists sorted,
      ListFiles dirpath w = (Returns (sorted, None), w) /\
      sorted ≡ₚ entries /\
      StronglySorted name_le sorted
  end.
Proof.
  unfold ListFiles, bind, ioutil_ReadDir.
  destruct (readdir (now w) dirpath) as [e | entries]; [reflexivity |].
  cbn [ret]. eexists. split; [reflexivity |]. split.
  - rewrite !sort_SliceStable_Permutation. reflexivity.
  - apply sort_SliceStable_sorted.
Qed.

(** X11: the sort in [ListFiles] changes nothing: [ioutil.ReadDir] has
    sorted the entries by name already, and [ListFiles] returns what it
    returns, entries and error alike. *)
Theorem ListFiles_is_ReadDir (dirpath : string) (w : World) :
  ListFiles dirpath w = ioutil_ReadDir dirpath w.
Proof.
  unfold ListFiles, bind, ioutil_ReadDir.
  destruct (readdir (now w) dirpath) as [e | entries]; [reflexivity |].
  cbn [ret]. rewrite sort_SliceStable_sorted_id by apply sort_SliceStable_sorted.
  reflexivity.
Qed.

Lemma os_Stat_run name w :
  os_Stat name w =
  (Returns match stat_fault (now w) name with
           | Some e => (None, Some e)
           | None =>
             match files w !! name with
             | Some _ => (Some {| fi_Name := filepath_Base name; fi_IsDir := false |}, None)
             | None =>
               if bool_decide (name ∈ directories)
               then (Some {| fi_Name := filepath_Base name; fi_IsDir := true |}, None)
               else (None, Some (ENOENT "stat" name))
             end
           end, w).
Proof.
  unfold os_Stat. destruct (stat_fault (now w) name); [reflexivity |].
  destruct (files w !! name); [reflexivity |].
  destruct (bool_decide (name ∈ directories)); reflexivity.
Qed.

(** X12: [FileExists] panics when the path cannot be examined for a
    reason other than its absence (permission denied on the way, say):
    [os.Stat] answers [nil] and an error that [os.IsNotExist] does not
    accept, and [info.IsDir()] dereferences the [nil]. *)
Theorem FileExists_panics (filename : string) (w : World) (e : error) :
  stat_fault (now w) filename = Some e ->
  os_IsNotExist (Some e) = false ->
  FileExists filename w = (Panics nil_dereference, w).
Proof.
  intros Hfault Hne. unfold FileExists, bind. rewrite os_Stat_run, Hfault, Hne.
  reflexivity.
Qed.


(** X14: [PathExists] never panics and never changes the world; it
    answers [true] for a regular file as for a directory, and it returns an
    error only when [os.Stat] fails with an error that [os.IsNotExist] does
    not accept, which is then the error returned, with [false]. *)
Theorem PathExists_spec (path : string) (w : World) :
  exists b err,
    PathExists path w = (Returns (b, err), w) /\
    (stat_fault (now w) path = None ->
     is_Some (files w !! path) \/ path ∈ directories -> b = true /\ err = None) /\
    (b = true -> err = None) /\
    (forall e, err = Some e ->
       os_IsNotExist (Some e) = false /\
       (stat_fault (now w) path = Some e \/
        (stat_fault (now w) path = None /\ e = ENOENT "stat" path))).
Proof.
  unfold PathExists, bind. rewrite os_Stat_run.
  destruct (stat_fault (now w) path) as [e|] eqn:Hfault.
  - destruct (os_IsNotExist (Some e)) eqn:Hne.
    + eexists _, _. split; [reflexivity |].
      split; [discriminate |]. split; [discriminate |]. discriminate.
    + eexists _, _. split; [reflexivity |].
      split; [discriminate |]. split; [discriminate |].
      intros e' [= <-]. split; [exact Hne | left; reflexivity].
  - destruct (files w !! path) as [data|] eqn:Hfile.
    + eexists _, _. split; [reflexivity |].
      split; [intros _ _; split; reflexivity |]. split; [reflexivity | discriminate].
    + destruct (bool_decide (path ∈ directories)) eqn:Hdir.
      * eexists _, _. split; [reflexivity |].
        split; [intros _ _; split; reflexivity |]. split; [reflexivity | discriminate].
      * apply bool_decide_eq_false in Hdir.
        destruct (os_IsNotExist (Some (ENOENT "stat" path))) eqn:Hne.
        -- eexists _, _. split; [reflexivity |]. split.
           ++ intros _ [[? Hs] | Hd]; [discriminate | contradiction].
           ++ split; [discriminate | discriminate].
        -- eexists _, _. split; [reflexivity |]. split.
           ++ intros _ [[? Hs] | Hd]; [discriminate | contradiction].
           ++ split; [discriminate |].
              intros e' [= <-]. split; [exact Hne | right; split; reflexivity].
Qed.


(** X16: for a path that is not there the three helpers differ:
    [FileExists] and [PathExists] answer [false] without an error, while
    [IsDirectory] returns the error of [os.Stat]. *)
Theorem missing_path (path : string) (w : World) :
  stat_fault (now w) path = None ->
  files w !! path = None -> path ∉ directories ->
  os_IsNotExist (Some (ENOENT "stat" path)) = true ->
  FileExists path w = (Returns false, w) /\
  PathExists path w = (Returns (false, None), w) /\
  IsDirectory path w = (Returns (false, Some (ENOENT "stat" path)), w).
Proof.
  intros Hfault Hfile Hdir Hne.
  unfold FileExists, PathExists, IsDirectory, bind.
  rewrite os_Stat_run, Hfault, Hfile, bool_decide_eq_false_2 by exact Hdir.
  rewrite Hne. repeat split.
Qed.

(** *** LookupFile *)

Lemma LookupFile_callback_match contains matched visit :
  LookupFile_callback contains matched visit =
  if LookupFile_match contains visit then fst visit else matched.
Proof. destruct visit as [p de]. reflexivity. Qed.

Lemma LookupFile_fold_none contains visits : forall matched,
  Forall (fun v => LookupFile_match contains v = false) visits ->
  fold_left (LookupFile_callback contains) visits matched = matched.
Proof.
  induction visits as [|v visits IH]; intros matched Hall; [reflexivity |].
  inversion Hall as [|? ? Hv Hall']; subst.
  cbn [fold_left]. rewrite LookupFile_callback_match, Hv. apply IH. exact Hall'.
Qed.

Lemma LookupFile_fold_last contains pre v post matched :
  LookupFile_match contains v = true ->
  Forall (fun v => LookupFile_match contains v = false) post ->
  fold_left (LookupFile_callback contains) (pre ++ v :: post) matched = fst v.
Proof.
  intros Hv Hpost. rewrite fold_left_app. cbn [fold_left].
  rewrite LookupFile_callback_match, Hv. apply LookupFile_fold_none. exact Hpost.
Qed.

(** X17: [LookupFile] returns the last match of the walk, not the first:
    when an entry is a regular file whose name contains the text, and no
    entry the walk meets after it is one, its path is the result, whatever
    matched before it. *)
Theorem LookupFile_last_match (dirname contains : string) (w : World)
    (pre post : list (string * godirwalk_Dirent)) (osPathname : string)
    (de : godirwalk_Dirent) :
  walk (now w) dirname = pre ++ (osPathname, de) :: post ->
  de_IsRegular de = true ->
  strings_Contains (de_Name de) contains = true ->
  Forall (fun v => LookupFile_match contains v = false) post ->
  osPathname <> ""%string ->
  LookupFile dirname contains w = (Returns (osPathname, None), w).
Proof.
  intros Hwalk Hreg Hcont Hpost Hne. unfold LookupFile. rewrite Hwalk.
  rewrite (LookupFile_fold_last contains pre (osPathname, de) post).
  - cbn [fst]. rewrite bool_decide_eq_false_2 by exact Hne. reflexivity.
  - unfold LookupFile_match. cbn [snd]. rewrite Hreg, Hcont. reflexivity.
  - exact Hpost.
Qed.

(** X18: [LookupFile] fails exactly when the walk meets no regular file
    whose name contains the text (directories and other entries with such
    a name do not count); the error is "file contains ... not found" and
    the path returned is empty. *)
Theorem LookupFile_not_found (dirname contains : string) (w : World) :
  (forall v, v ∈ walk (now w) dirname ->
     LookupFile_match contains v = true -> fst v <> ""%string) ->
  (Forall (fun v => LookupFile_match contains v = false) (walk (now w) dirname) ->
   LookupFile dirname contains w = (Returns (""%string, Some (errNotFound contains)), w)) /\
  (forall res e w', LookupFile dirname contains w = (Returns (res, Some e), w') ->
   Forall (fun v => LookupFile_match contains v = false) (walk (now w) dirname)).
Proof.
  intros Hpaths. split.
  - intros Hall. unfold LookupFile. rewrite LookupFile_fold_none by exact Hall.
    rewrite bool_decide_eq_true_2 by reflexivity. reflexivity.
  - intros res e w' Hrun. unfold LookupFile in Hrun.
    set (visits := walk (now w) dirname) in *.
    destruct (decide (Forall (fun v => LookupFile_match contains v = false) visits))
      as [Hall | Hnot]; [exact Hall |].
    exfalso.
    assert (Hlast : exists pre v post, visits = pre ++ v :: post /\
              LookupFile_match contains v = true /\
              Forall (fun v => LookupFile_match contains v = false) post).
    { clear Hpaths Hrun. induction visits as [|v visits IH];
        [exfalso; apply Hnot; constructor |].
      destruct (decide (Forall (fun v => LookupFile_match contains v = false) visits))
        as [Hrest | Hrest].
      - exists [], v, visits. split; [reflexivity |]. split; [| exact Hrest].
        destruct (LookupFile_match contains v) eqn:Hv; [reflexivity |].
        exfalso. apply Hnot. constructor; assumption.
      - destruct (IH Hrest) as [pre [v' [post [-> [Hv' Hpost]]]]].
        exists (v :: pre), v', post. repeat split; assumption. }
    destruct Hlast as [pre [v [post [Heq [Hv Hpost]]]]].
    rewrite Heq in Hrun, Hpaths.
    rewrite (LookupFile_fold_last contains pre v post "" Hv Hpost) in Hrun.
    rewrite bool_decide_eq_false_2 in Hrun; [discriminate |].
    apply Hpaths; [| exact Hv]. apply elem_of_app. right. left.
Qed.

End FileTreeProperties.

(** ** The random bytes, again *)





(** X20: a negative length is not reported as an error: [make] panics. A
    length of zero gives an empty slice and leaves the random source as it
    was. *)
Theorem GenRandomByteSlice_edge (n : Z) (w : World) :
  (n < 0 -> GenRandomByteSlice n w = (Panics "makeslice: len out of range", w)) /\
  (n = 0 -> GenRandomByteSlice n w = (Returns ([], None), w)).
Proof.
  split.
  - intros Hn. unfold GenRandomByteSlice, bind, make_bytes.
    destruct (n <? 0) eqn:Hneg; [reflexivity | apply Z.ltb_ge in Hneg; lia].
  - intros ->. reflexivity.
Qed.

(** ** The loaders and the extractor, again *)

Section PackageFurther.
Context `{Libraries}.

(** X21: [getCACert] closes the connection it opened on every way out:
    after a handshake that succeeded, with a CA in the chain or without,
    its calls are the dial and one close; after a dial that failed there is
    nothing to close and it closes nothing. *)
Theorem getCACert_closes (domain : string) (w : World) :
  match getCACert_handshake w domain with
  | inr chain =>
    calls w (snd (getCACert domain w)) = [dial_event domain; close_event domain]
  | inl e =>
    calls w (snd (getCACert domain w)) = [dial_event domain]
  end /\
  files (snd (getCACert domain w)) = files w.
Proof.
  rewrite getCACert_run.
  destruct (getCACert_handshake w domain) as [e | chain]; cbn [snd].
  - split; [apply calls_record1 | reflexivity].
  - split; [apply calls_record2 | reflexivity].
Qed.

(** X22: [DownloadCACert] does not replace the file in one step. When the
    file can be opened and the write stops after [n] bytes, the error is
    returned and the file holds the first [n] bytes of the PEM text: what
    it held before is gone. When the file cannot be opened it is left as it
    was. *)
Theorem DownloadCACert_short_write (outputPath domain : string) (w w1 : World)
    (cert : x509_Certificate) (pemBytes : bytes) :
  getCACert domain w = (Returns (Some cert, None), w1) ->
  pem_EncodeToMemory (CERTIFICATE_block (Raw cert)) = Some pemBytes ->
  (forall n e,
     create_fault w1 (now w1) outputPath = None ->
     write_fault w1 (now w1) outputPath = Some (n, e) ->
     exists w',
       DownloadCACert outputPath domain w = (Returns (Some e), w') /\
       files w' !! outputPath = Some (take n pemBytes)) /\
  (forall e,
     create_fault w1 (now w1) outputPath = Some e ->
     exists w',
       DownloadCACert outputPath domain w = (Returns (Some e), w') /\
       files w' = files w).
Proof.
  intros Hget Henc.
  destruct (getCACert_world _ _ _ _ Hget) as [Hfiles _].
  rewrite (DownloadCACert_write _ _ _ _ _ Hget), Henc. cbn [slice_of default].
  unfold ioutil_WriteFile. split.
  - intros n e Hc Hw. rewrite Hc, Hw. eexists. split; [reflexivity |].
    cbn [with_files files]. apply lookup_insert_eq.
  - intros e Hc. rewrite Hc. eexists. split; [reflexivity | exact Hfiles].
Qed.

(** X23: the file [DownloadCACert] has written reads back through
    [LoadFile] as PEM text that decodes to the raw bytes of the certificate,
    when the file can be read. *)
Theorem LoadFile_DownloadCACert (outputPath domain : string) (w w1 w' : World)
    (cert : x509_Certificate) :
  getCACert domain w = (Returns (Some cert, None), w1) ->
  DownloadCACert outputPath domain w = (Returns None, w') ->
  read_fault w' (now w') outputPath = None ->
  exists data w'',
    LoadFile outputPath w' = (Returns (data, None), w'') /\
    pem_Decode data = (Some (CERTIFICATE_block (Raw cert)), []).
Proof.
  intros Hget Hrun Hread.
  destruct (pem_Decode_EncodeToMemory (Raw cert)) as [pemBytes [Henc Hdec]].
  rewrite (DownloadCACert_write _ _ _ _ _ Hget) in Hrun.
  fold (CERTIFICATE_block (Raw cert)) in Henc. rewrite Henc in Hrun.
  cbn [slice_of default] in Hrun. unfold ioutil_WriteFile in Hrun.
  destruct (create_fault w1 (now w1) outputPath); [discriminate |].
  destruct (write_fault w1 (now w1) outputPath) as [[n e]|]; [discriminate |].
  injection Hrun as <-.
  unfold LoadFile. rewrite ioutil_ReadFile_run.
  unfold read_result. rewrite Hread. cbn [with_files files].
  rewrite lookup_insert_eq. exists pemBytes. eexists. split; [reflexivity | exact Hdec].
Qed.


End PackageFurther.

(** ** Examples for the further properties *)

Lemma UnixToUtcTS_CurrentTimestamp_witness :
  exists n,
    @CurrentTimestamp demo_clock empty_world = (Returns n, empty_world) /\
    UnixToUtcTS n = {| Seconds := 1600000000; Nanos := 123456789 |}.
Proof.
  apply (@UnixToUtcTS_CurrentTimestamp demo_clock empty_world); vm_compute; intuition discriminate.
Defined.

Lemma DecodeB64_illegal_witness :
  snd (DecodeB64 "TWE=") = Some (base64_CorruptInputError 3) /\
  ~ base64_raw_ok StdPadding.
Proof.
  apply (DecodeB64_illegal "TWE=" (bytes_of "TWE") "="%byte []).
  - reflexivity.
  - change (Forall base64_raw_ok ["T"%byte; "W"%byte; "E"%byte]).
    repeat (constructor; [left; eexists; vm_compute; reflexivity |]). constructor.
  - intros [[d Hd] | [Hnl | Hcr]]; discriminate.
Defined.

Lemma DecodeB64_partial_witness :
  DecodeB64 "TWFu!" = (bytes_of "Man", Some (base64_CorruptInputError 4)).
Proof.
  apply (DecodeB64_partial "TWFu!" (bytes_of "Man") "!"%byte []).
  - reflexivity.
  - reflexivity.
  - intros [[d Hd] | [Hnl | Hcr]]; discriminate.
Defined.

Lemma FileExists_panics_witness :
  @FileExists demo_tree "/root/ca.pem" tree_world = (Panics nil_dereference, tree_world).
Proof.
  apply (@FileExists_panics demo_tree "/root/ca.pem" tree_world
           (errors_New "stat /root/ca.pem: permission denied")); reflexivity.
Defined.



Lemma missing_path_witness :
  @FileExists demo_tree "/etc/certs/ca.key" tree_world = (Returns false, tree_world) /\
  @PathExists demo_tree "/etc/certs/ca.key" tree_world = (Returns (false, None), tree_world) /\
  @IsDirectory demo_tree "/etc/certs/ca.key" tree_world =
    (Returns (false, Some (ENOENT "stat" "/etc/certs/ca.key")), tree_world).
Proof.
  apply (@missing_path demo_tree "/etc/certs/ca.key" tree_world).
  - reflexivity.
  - reflexivity.
  - apply (bool_decide_eq_true_1 _). vm_compute. reflexivity.
  - reflexivity.
Defined.

Lemma LookupFile_last_match_witness :
  @LookupFile demo_tree "/etc/certs" "ca.pem" tree_world =
  (Returns ("/etc/certs/old/ca.pem.bak"%string, None), tree_world).
Proof.
  apply (@LookupFile_last_match demo_tree "/etc/certs" "ca.pem" tree_world
           [ ("/etc/certs"%string, {| de_Name := "certs"; de_IsRegular := false |});
             ("/etc/certs/ca.pem"%string, {| de_Name := "ca.pem"; de_IsRegular := true |});
             ("/etc/certs/server.key"%string,
              {| de_Name := "server.key"; de_IsRegular := true |});
             ("/etc/certs/old"%string, {| de_Name := "old"; de_IsRegular := false |}) ]
           []
           "/etc/certs/old/ca.pem.bak"
           {| de_Name := "ca.pem.bak"; de_IsRegular := true |}).
  - reflexivity.
  - reflexivity.
  - vm_compute. reflexivity.
  - constructor.
  - discriminate.
Defined.

Lemma LookupFile_not_found_witness :
  @LookupFile demo_tree "/etc/certs" "certs" tree_world =
  (Returns (""%string, Some (errNotFound "certs")), tree_world).
Proof.
  apply (@LookupFile_not_found demo_tree "/etc/certs" "certs" tree_world).
  - intros v Hv Hm. apply list_elem_of_In in Hv. vm_compute in Hv.
    destruct Hv as [<- | [<- | [<- | [<- | [<- | []]]]]]; vm_compute in Hm; discriminate Hm.
  - repeat constructor.
Defined.


Lemma DownloadCACert_short_write_witness :
  exists w',
    DownloadCACert "ca.pem" "example.test" full_disk_world =
      (Returns (Some (errors_New "write ca.pem: no space left on device")), w') /\
    files w' !! "ca.pem"%string = Some (bytes_of "-----BEGIN").
Proof.
  destruct (getCACert "example.test" full_disk_world) as [r w1] eqn:Hget.
  vm_compute in Hget. injection Hget as <- <-.
  refine (proj1 (DownloadCACert_short_write "ca.pem" "example.test"
           full_disk_world _ root_cert
           (slice_of (pem_EncodeToMemory (CERTIFICATE_block (Raw root_cert)))) _ _)
           10%nat (errors_New "write ca.pem: no space left on device") _ _);
    vm_compute; reflexivity.
Defined.

Lemma LoadFile_DownloadCACert_witness :
  exists data w'',
    LoadFile "ca.pem" (snd (DownloadCACert "ca.pem" "example.test" web_world)) =
      (Returns (data, None), w'') /\
    pem_Decode data = (Some (CERTIFICATE_block (Raw root_cert)), []).
Proof.
  apply (LoadFile_DownloadCACert "ca.pem" "example.test" web_world
           (snd (getCACert "example.test" web_world)));
    vm_compute; reflexivity.
Defined.
